(** * Spectrum-based fault localisation: the coverage collector and the
    Tarantula debugger of [TarantulaDebugger.py]

    The development embeds the two classes [CoverageCollector] and
    [TarantulaDebugger].  The repository holds two copies of the
    collector, one in [CoverageCollector.py] and one in
    [TarantulaDebugger.py]; apart from comments and the order of the
    assignments in [__init__] they differ in one place: only the second
    defines the method [unknown] that [create_function] falls back to.
    Both are modelled: a collector object carries its class.  The
    session and aggregation code of the debugger is shared, line by line,
    with [SpectrumDebugger.py] and [ContinuousSpectrumDebugger.py].

    Modelling decisions.

    - Python objects are mutable and shared: a collector is created by
      the debugger, mutated by the trace callback while the block runs,
      and stays referenced from the debugger's [collectors] dictionary.
      Collectors live in a store addressed by references; the debugger
      holds references.  Function objects carry the reference they were
      allocated at, so identity ([is]) is equality of references.
    - Methods that mutate [self] take the reference of [self] and the
      world, and return the new world.  A method that may raise returns a
      [Result]; the world it leaves behind is returned next to it.
    - A traced block is the list of events the interpreter delivers to
      the installed trace callback, and the exception that leaves the
      block, if any.  When the callback itself raises, the interpreter
      clears the trace slot and raises the error in the traced program;
      whether the program handles it shows in the exception that leaves
      the block, and later events of the list reach no callback.
    - The built-in [repr] and the operator [!=] run code of the traced
      program's classes.  They are parameters: [repr] is a field of the
      world, [!=] an argument of [changed_vars], and both may raise.
    - The fractions are quotients of two list lengths.  They are modelled
      by exact rationals, and "equal" on them is [==].
    - A [dict] is an association list in insertion order.  A [set] is a
      [gset]; where the code lists a set, the listing is [elements].
    - Fields of the collector that no modelled method reads ([file],
      [_exception]) are left out, as are the methods that only print or
      render; [last_vars], which only [changed_vars] uses, is an argument
      of it. *)

From Stdlib Require Import QArith Lqa Sorted.
From stdpp Require Import base functions gmap sets list strings pretty.

Local Open Scope string_scope.
Local Open Scope Z_scope.
Local Open Scope list_scope.

(** ** Python values, as far as the tracer inspects them *)

(** A callable.  [Fn ref name] is a function object living at [ref] whose
    [__name__] is [name].  [Unknown owner] is the bound method
    [collector.unknown] of the collector at [owner]; bound methods of one
    object compare and hash equal, which is all a set or dictionary sees. *)
Inductive Callable :=
  | Fn (ref : nat) (name : string)
  | Unknown (owner : nat).

Definition __name__ (f : Callable) : string :=
  match f with
  | Fn _ name => name
  | Unknown _ => "unknown"
  end.

Global Instance Callable_eq_dec : EqDecision Callable.
Proof. solve_decision. Defined.

Global Instance Callable_countable : Countable Callable.
Proof.
  refine (inj_countable'
    (λ f, match f with Fn r n => inl (r, n) | Unknown o => inr o end)
    (λ x, match x with inl (r, n) => Fn r n | inr o => Unknown o end) _).
  by intros [].
Defined.

(** Values found in the local and global name spaces of a frame.  An
    instance carries the names of the classes in its method resolution
    order, which decides [isinstance]. *)
Inductive Value :=
  | VNone
  | VInt (n : Z)
  | VStr (s : string)
  | VFun (f : Callable)
  | VObj (mro : list string) (ref : nat).

(** Truth value of [item] in [if item and callable(item)]. *)
Definition truthy (v : Value) : bool :=
  match v with
  | VNone => false
  | VInt n => negb (n =? 0)
  | VStr s => negb (String.eqb s "")
  | VFun _ => true
  | VObj _ _ => true
  end.

Definition as_callable (v : Value) : option Callable :=
  match v with
  | VFun f => Some f
  | _ => None
  end.

Definition isinstance (v : Value) (cls : string) : bool :=
  match v with
  | VObj mro _ => bool_decide (cls ∈ mro)
  | _ => false
  end.

(** A Python [dict] keeps insertion order; name spaces and the debugger's
    [collectors] are association lists read at the first binding. *)
Fixpoint dict_get {V} (k : string) (d : list (string * V)) : option V :=
  match d with
  | [] => None
  | (k', v) :: d' => if String.eqb k k' then Some v else dict_get k d'
  end.

Definition dict_mem {V} (k : string) (d : list (string * V)) : bool :=
  match dict_get k d with Some _ => true | None => false end.

(** ** Frames and trace events *)

(** A code object.  [FunctionType(code, globals, name)] called without a
    closure raises [TypeError] exactly when the code has free variables
    (nested functions, comprehensions closing over locals). *)
Record CodeObj := mkCode {
  co_name : string;
  co_freevars : list string
}.

#[warnings="-register-all"]
Inductive Frame := mkFrame {
  f_code : CodeObj;
  f_lineno : Z;
  f_globals : list (string * Value);
  f_locals : list (string * Value);
  f_back : option Frame
}.

Inductive EventKind := Call | Line | Return | Exception | Opcode.

Global Instance EventKind_eq_dec : EqDecision EventKind.
Proof. solve_decision. Defined.

Record TraceEvent := mkEvent {
  ev_frame : Frame;
  ev_kind : EventKind
}.

(** What [sys.settrace] holds: the bound [_traceit] of a collector, or a
    callback installed by someone else. *)
Inductive TraceFn :=
  | TraceOf (collector_ref : nat)
  | OtherTrace (id : nat).

(** Entries of [items_to_ignore]: classes and callables. *)
Inductive Item :=
  | IType (cls : string)
  | IFunc (f : Callable).

Definition item_name (i : Item) : string :=
  match i with
  | IType cls => cls
  | IFunc f => __name__ f
  end.

(** An event of a spectrum: (function name, line number). *)
Abbreviation Event := (string * Z)%type.
Abbreviation Location := (Callable * Z)%type.

(** ** Errors *)

Inductive PyError :=
  | ValueError (msg : string)
  | KeyError (key : string)
  | AttributeError (name : string)
  | ZeroDivisionError
  | AssertionError
  | OtherError (name : string).

Inductive Result (A : Type) :=
  | Ok (a : A)
  | Raise (e : PyError).
Arguments Ok {A} a.
Arguments Raise {A} e.

Definition rbind {A B} (m : Result A) (k : A → Result B) : Result B :=
  match m with
  | Ok a => k a
  | Raise e => Raise e
  end.

Notation "x ←! m ; k" := (rbind m (λ x, k))
  (at level 20, m at level 100, k at level 200, right associativity).

Fixpoint rmap_list {A B} (f : A → Result B) (l : list A) : Result (list B) :=
  match l with
  | [] => Ok []
  | a :: l' => b ←! f a; bs ←! rmap_list f l'; Ok (b :: bs)
  end.

(** ** The store *)

(** The two copies of [class CoverageCollector]. *)
Inductive CollectorClass :=
  | CoverageCollector_py     (* CoverageCollector.py: no method [unknown] *)
  | TarantulaDebugger_py.    (* TarantulaDebugger.py: defines [unknown] *)

Record Collector := mkCollector {
  __class__ : CollectorClass;
  original_trace_function : option TraceFn;
  _function : option Callable;
  _args : option (list (string * Value));
  _argstring : option string;
  items_to_ignore : list Item;
  _coverage : gset Location;
  _generated_function_cache : gmap (string * Z) Callable
}.

Record World := mkWorld {
  heap : nat → Collector;           (* collector objects by reference *)
  next_ref : nat;                   (* next free reference *)
  trace_slot : option TraceFn;      (* sys.gettrace() / sys.settrace() *)
  repr : Value → Result string      (* the built-in [repr] *)
}.

Definition upd (r : nat) (f : Collector → Collector) (w : World) : World :=
  {| heap := fn_insert r (f (heap w r)) (heap w);
     next_ref := next_ref w;
     trace_slot := trace_slot w;
     repr := repr w |}.

Definition settrace (t : option TraceFn) (w : World) : World :=
  {| heap := heap w; next_ref := next_ref w; trace_slot := t;
     repr := repr w |}.

(** Allocation of a fresh object reference. *)
Definition alloc (w : World) : nat * World :=
  (next_ref w,
   {| heap := heap w; next_ref := S (next_ref w);
      trace_slot := trace_slot w; repr := repr w |}).

(** Field updates of a collector object. *)
Definition set_original (t : option TraceFn) (c : Collector) : Collector :=
  {| __class__ := __class__ c;
     original_trace_function := t;
     _function := _function c; _args := _args c; _argstring := _argstring c;
     items_to_ignore := items_to_ignore c; _coverage := _coverage c;
     _generated_function_cache := _generated_function_cache c |}.

Definition set_function (f : Callable) (c : Collector) : Collector :=
  {| __class__ := __class__ c;
     original_trace_function := original_trace_function c;
     _function := Some f; _args := _args c; _argstring := _argstring c;
     items_to_ignore := items_to_ignore c; _coverage := _coverage c;
     _generated_function_cache := _generated_function_cache c |}.

Definition set_args (args : list (string * Value)) (c : Collector)
    : Collector :=
  {| __class__ := __class__ c;
     original_trace_function := original_trace_function c;
     _function := _function c; _args := Some args; _argstring := _argstring c;
     items_to_ignore := items_to_ignore c; _coverage := _coverage c;
     _generated_function_cache := _generated_function_cache c |}.

Definition set_argstring (argstring : string) (c : Collector) : Collector :=
  {| __class__ := __class__ c;
     original_trace_function := original_trace_function c;
     _function := _function c; _args := _args c;
     _argstring := Some argstring;
     items_to_ignore := items_to_ignore c; _coverage := _coverage c;
     _generated_function_cache := _generated_function_cache c |}.

Definition set_items (items : list Item) (c : Collector) : Collector :=
  {| __class__ := __class__ c;
     original_trace_function := original_trace_function c;
     _function := _function c; _args := _args c; _argstring := _argstring c;
     items_to_ignore := items; _coverage := _coverage c;
     _generated_function_cache := _generated_function_cache c |}.

Definition set_coverage (cov : gset Location) (c : Collector) : Collector :=
  {| __class__ := __class__ c;
     original_trace_function := original_trace_function c;
     _function := _function c; _args := _args c; _argstring := _argstring c;
     items_to_ignore := items_to_ignore c; _coverage := cov;
     _generated_function_cache := _generated_function_cache c |}.

Definition set_cache (cache : gmap (string * Z) Callable) (c : Collector)
    : Collector :=
  {| __class__ := __class__ c;
     original_trace_function := original_trace_function c;
     _function := _function c; _args := _args c; _argstring := _argstring c;
     items_to_ignore := items_to_ignore c; _coverage := _coverage c;
     _generated_function_cache := cache |}.

(** The exception triple handed to [__exit__]: the exception class and
    the frames of its traceback, in the order [traceback.walk_tb] yields
    them.  [None] stands for [(None, None, None)]. *)
Record ExcInfo := mkExc {
  exc_tp : string;
  exc_traceback : list Frame
}.

(** ** class CoverageCollector *)

Module CoverageCollector.

Definition class_name : string := "CoverageCollector".

(** [__init__], for an object of class [cls]. *)
Definition __init__ (cls : CollectorClass) : Collector :=
  {| __class__ := cls;
     original_trace_function := None;
     _function := None; _args := None; _argstring := None;
     items_to_ignore := [IType class_name];
     _coverage := ∅;
     _generated_function_cache := ∅ |}.

(** [our_frame]: [isinstance(frame.f_locals.get('self'), self.__class__)] *)
Definition our_frame (frame : Frame) : bool :=
  match dict_get "self" (f_locals frame) with
  | Some v => isinstance v class_name
  | None => false
  end.

(** [item and callable(item)], for an [item] that may be [None]. *)
Definition callable_item (item : option Value) : option Callable :=
  match item with
  | Some v => if truthy v then as_callable v else None
  | None => None
  end.

(** [search_frame], called with an explicit frame as [collect] does. *)
Fixpoint search_frame (name : string) (frame : Frame)
    : option (Frame * Callable) :=
  let item : option Value := None in
  let item :=
    if dict_mem name (f_globals frame)
    then dict_get name (f_globals frame) else item in
  let item :=
    if dict_mem name (f_locals frame)
    then dict_get name (f_locals frame) else item in
  match callable_item item with
  | Some func => Some (frame, func)
  | None =>
      match f_back frame with
      | Some back => search_frame name back
      | None => None
      end
  end.

Definition search_func (name : string) (frame : Frame) : option Callable :=
  snd <$> search_frame name frame.

(** [FunctionType(frame.f_code, globals=frame.f_globals, name=name)]:
    a new function object, or [TypeError] ([None]).  Called with a code
    object, a dictionary and a string, it raises nothing else, so the
    [except Exception] arm of [create_function] is never taken. *)
Definition FunctionType (code : CodeObj) (name : string) (w : World)
    : option Callable * World :=
  match co_freevars code with
  | [] => let '(ref, w) := alloc w in (Some (Fn ref name), w)
  | _ :: _ => (None, w)
  end.

(** The attribute [self.unknown]: the bound method, in the class that
    defines it; [AttributeError] in the class that does not. *)
Definition unknown (self : nat) (w : World) : Result Callable :=
  match __class__ (heap w self) with
  | TarantulaDebugger_py => Ok (Unknown self)
  | CoverageCollector_py => Raise (AttributeError "unknown")
  end.

(** [create_function].  An error raised inside the [except TypeError]
    handler leaves the method before the cache is written. *)
Definition create_function (self : nat) (frame : Frame) (w : World)
    : Result Callable * World :=
  let name := co_name (f_code frame) in
  let cache_key := (name, f_lineno frame) in
  match _generated_function_cache (heap w self) !! cache_key with
  | Some cached => (Ok cached, w)
  | None =>
      let '(generated_function, w) :=
        match FunctionType (f_code frame) name w with
        | (Some created, w) => (Ok created, w)
        | (None, w) => (unknown self w, w)
        end in
      match generated_function with
      | Raise e => (Raise e, w)
      | Ok generated_function =>
          let w :=
            upd self (λ c, set_cache
              (<[cache_key := generated_function]>
                 (_generated_function_cache c)) c) w in
          (Ok generated_function, w)
      end
  end.

Definition collect (self : nat) (frame : Frame) (event : EventKind)
    (w : World) : Result unit * World :=
  let name := co_name (f_code frame) in
  let '(function, w) :=
    match search_func name frame with
    | Some found => (Ok found, w)
    | None => create_function self frame w
    end in
  match function with
  | Raise e => (Raise e, w)
  | Ok function =>
      let location := (function, f_lineno frame) in
      (Ok tt, upd self (λ c, set_coverage (_coverage c ∪ {[location]}) c) w)
  end.

(** One round of the loop over [items_to_ignore] in [traceit]: the two
    tests that make it return. *)
Definition ignores (item : Item) (frame : Frame) : bool :=
  match item, dict_get "self" (f_locals frame) with
  | IType cls, Some v => isinstance v cls
  | _, _ => false
  end
  || String.eqb (item_name item) (co_name (f_code frame)).

(** [", ".join([f"{var}={repr(args[var])}" for var in args])]; the
    elements are rendered in order, and the first error ends it. *)
Definition argstring_of (repr : Value → Result string)
    (args : list (string * Value)) : Result string :=
  parts ←! rmap_list (λ kv, r ←! repr (snd kv); Ok (fst kv +:+ "=" +:+ r))
                     args;
  Ok (String.concat ", " parts).

(** [traceit]: dropped if some item matches; else the first [call]
    is recorded, and every event is collected. *)
Definition traceit (self : nat) (frame : Frame) (event : EventKind)
    (w : World) : Result unit * World :=
  if existsb (λ item, ignores item frame) (items_to_ignore (heap w self))
  then (Ok tt, w)
  else
    let '(first, w) :=
      match _function (heap w self), event with
      | None, Call =>
          match create_function self frame w with
          | (Raise e, w) => (Raise e, w)
          | (Ok created, w) =>
              let w := upd self (set_function created) w in
              let args := f_locals frame in
              let w := upd self (set_args args) w in
              match argstring_of (repr w) args with
              | Raise e => (Raise e, w)
              | Ok argstring => (Ok tt, upd self (set_argstring argstring) w)
              end
          end
      | _, _ => (Ok tt, w)
      end in
    match first with
    | Raise e => (Raise e, w)
    | Ok _ => collect self frame event w
    end.

Definition _traceit (self : nat) (frame : Frame) (event : EventKind)
    (w : World) : Result unit * World :=
  if our_frame frame then (Ok tt, w) else traceit self frame event w.

Definition __enter__ (self : nat) (w : World) : World :=
  let w := upd self (set_original (trace_slot w)) w in
  settrace (Some (TraceOf self)) w.

Definition is_internal_error (exc : option ExcInfo) : bool :=
  match exc with
  | None => false
  | Some e => existsb our_frame (exc_traceback e)
  end.

(** [__exit__] returns [None], [False], or raises; the world it leaves
    is returned in both cases. *)
Definition __exit__ (self : nat) (exc : option ExcInfo) (w : World)
    : Result (option bool) * World :=
  let w := settrace (original_trace_function (heap w self)) w in
  let ret := if is_internal_error exc then Some false else None in
  match _function (heap w self) with
  | None =>
      match exc with
      | Some _ => (Ok (Some false), w)
      | None => (Raise (ValueError "No call collected"), w)
      end
  | Some _ => (Ok ret, w)
  end.

Definition add_items_to_ignore (self : nat) (items : list Item)
    (w : World) : World :=
  upd self (λ c, set_items (items_to_ignore c ++ items) c) w.

(** Queries take the collector object itself. *)
Definition argstring (c : Collector) : Result string :=
  match _argstring c with
  | Some s => if String.eqb s "" then Raise (ValueError "No call collected")
              else Ok s
  | None => Raise (ValueError "No call collected")
  end.

Definition args (c : Collector) : Result (list (string * Value)) :=
  match _args c with
  | Some (kv :: d) => Ok (kv :: d)
  | Some [] | None => Raise (ValueError "No call collected")
  end.

Definition function (c : Collector) : Result Callable :=
  match _function c with
  | Some f => Ok f
  | None => Raise (ValueError "No call collected")
  end.

Definition coverage (c : Collector) : gset Location := _coverage c.

Definition events (c : Collector) : gset Event :=
  set_map (λ loc : Location, (__name__ (fst loc), snd loc)) (_coverage c).

Definition covered_functions (c : Collector) : gset Callable :=
  set_map (λ loc : Location, fst loc) (_coverage c).

End CoverageCollector.

(** ** Numbers and sorting *)

(** The fractions are quotients of two list lengths; they are modelled by
    exact rationals. *)
Definition Qlt_bool (x y : Q) : bool := negb (Qle_bool y x).

(** [len(a) / len(b)] *)
Definition truediv (a b : nat) : Result Q :=
  match b with
  | O => Raise ZeroDivisionError
  | S _ => Ok (inject_Z (Z.of_nat a) / inject_Z (Z.of_nat b))%Q
  end.

(** [list.sort(key=..., reverse=True)] on decorated elements: stable, by
    descending key.  An element is placed before the first one whose key
    is not larger. *)
Fixpoint insert_desc {A} (x : Q * A) (l : list (Q * A)) : list (Q * A) :=
  match l with
  | [] => [x]
  | y :: l' =>
      if Qle_bool (fst y) (fst x) then x :: y :: l'
      else y :: insert_desc x l'
  end.

Fixpoint sort_desc {A} (l : list (Q * A)) : list (Q * A) :=
  match l with
  | [] => []
  | x :: l' => insert_desc x (sort_desc l')
  end.

(** ** class TarantulaDebugger *)

Record Debugger := mkDebugger {
  collector_class : CollectorClass;
  collectors : list (string * list nat);   (* outcome -> collectors *)
  collector : option nat                   (* [self.collector] *)
}.

Module TarantulaDebugger.

Definition class_name : string := "TarantulaDebugger".
Definition PASS : string := "PASS".
Definition FAIL : string := "FAIL".

Definition __init__ (collector_class : CollectorClass) : Debugger :=
  {| collector_class := collector_class;
     collectors := []; collector := None |}.

(** [d[k].append(v)] *)
Fixpoint dict_append (k : string) (v : nat) (d : list (string * list nat))
    : list (string * list nat) :=
  match d with
  | [] => []
  | (k', l) :: d' =>
      if String.eqb k k' then (k', l ++ [v]) :: d'
      else (k', l) :: dict_append k v d'
  end.

Definition add_collector (outcome : string) (c : nat) (self : Debugger)
    : Debugger :=
  let cs := collectors self in
  let cs := if dict_mem outcome cs then cs else cs ++ [(outcome, [])] in
  {| collector_class := collector_class self;
     collectors := dict_append outcome c cs; collector := collector self |}.

Definition __enter__ (self : Debugger) (w : World) : Debugger * World :=
  let '(c, w) := alloc w in
  let w := upd c (λ _, CoverageCollector.__init__ (collector_class self)) w in
  let self := {| collector_class := collector_class self;
                 collectors := collectors self; collector := Some c |} in
  let w := CoverageCollector.add_items_to_ignore c [IType class_name] w in
  let w := CoverageCollector.__enter__ c w in
  (self, w).

(** [__exit__] returns a [bool] or lets the collector's error through. *)
Definition __exit__ (self : Debugger) (exc : option ExcInfo) (w : World)
    : Result bool * Debugger * World :=
  match collector self with
  | None => (Raise (AttributeError "collector"), self, w)
  | Some c =>
      match CoverageCollector.__exit__ c exc w with
      | (Raise e, w) => (Raise e, self, w)
      | (Ok (Some _), w) => (Ok false, self, w)
      | (Ok None, w) =>
          let outcome := match exc with None => PASS | Some _ => FAIL end in
          (Ok true, add_collector outcome c self, w)
      end
  end.

(** [collect(outcome)]: a fresh collector, filed at once and returned. *)
Definition collect (outcome : string) (self : Debugger) (w : World)
    : nat * Debugger * World :=
  let '(c, w) := alloc w in
  let w := upd c (λ _, CoverageCollector.__init__ (collector_class self)) w in
  let w := CoverageCollector.add_items_to_ignore c [IType class_name] w in
  (c, add_collector outcome c self, w).

Definition collect_pass := collect PASS.
Definition collect_fail := collect FAIL.

(** The union of [collector.events()] over a list of collectors. *)
Definition events_of (w : World) (cs : list nat) : gset Event :=
  ⋃ (map (λ c, CoverageCollector.events (heap w c)) cs).

(** [all_events(outcome=None)]; an empty string is as good as [None]. *)
Definition all_events (self : Debugger) (outcome : option string)
    (w : World) : gset Event :=
  match outcome with
  | Some (String a o) =>
      match dict_get (String a o) (collectors self) with
      | Some cs => events_of w cs
      | None => ∅
      end
  | Some EmptyString | None =>
      ⋃ (map (λ kv, events_of w (snd kv)) (collectors self))
  end.

Definition all_fail_events (self : Debugger) (w : World) : gset Event :=
  all_events self (Some FAIL) w.
Definition all_pass_events (self : Debugger) (w : World) : gset Event :=
  all_events self (Some PASS) w.

Definition only_fail_events (self : Debugger) (w : World) : gset Event :=
  all_fail_events self w ∖ all_pass_events self w.
Definition only_pass_events (self : Debugger) (w : World) : gset Event :=
  all_pass_events self w ∖ all_fail_events self w.

(** The result is a set of collector objects, hashed by identity. *)
Definition collectors_with_event (self : Debugger) (event : Event)
    (category : string) (w : World) : Result (gset nat) :=
  match dict_get category (collectors self) with
  | None => Raise (KeyError category)
  | Some all_runs =>
      Ok (list_to_set
            (filter (λ c, event ∈ CoverageCollector.events (heap w c))
                    all_runs))
  end.

Definition event_fraction (self : Debugger) (event : Event)
    (category : string) (w : World) : Result Q :=
  match dict_get category (collectors self) with
  | None => Ok 0%Q
  | Some all_collectors =>
      with_event ←! collectors_with_event self event category w;
      truediv (size with_event) (length all_collectors)
  end.

Definition passed_fraction self event w := event_fraction self event PASS w.
Definition failed_fraction self event w := event_fraction self event FAIL w.

Definition hue (self : Debugger) (event : Event) (w : World)
    : Result (option Q) :=
  passed ←! passed_fraction self event w;
  failed ←! failed_fraction self event w;
  if Qlt_bool 0 (passed + failed)
  then Ok (Some (passed / (passed + failed))%Q)
  else Ok None.

Definition suspiciousness (self : Debugger) (event : Event) (w : World)
    : Result (option Q) :=
  h ←! hue self event w;
  match h with
  | None => Ok None
  | Some h => Ok (Some (1 - h)%Q)
  end.

(** The key function local to [rank]. *)
Definition susp (self : Debugger) (w : World) (event : Event) : Result Q :=
  s ←! suspiciousness self event w;
  match s with
  | None => Raise AssertionError
  | Some s => Ok s
  end.

(** [rank]: the keys of all elements are computed first, then the list
    is sorted on them.  The order in which a set is listed is
    [elements]. *)
Definition rank (self : Debugger) (w : World) : Result (list Event) :=
  let events := elements (all_events self None w) in
  keys ←! rmap_list (susp self w) events;
  Ok (map snd (sort_desc (zip keys events))).

(** The loop of [function()]. *)
Fixpoint function_loop (w : World) (cs : list nat)
    (names_seen : gset string) (functions : list Callable)
    : Result (list Callable) :=
  match cs with
  | [] => Ok functions
  | c :: cs' =>
      func ←! CoverageCollector.function (heap w c);
      if decide (__name__ func ∈ names_seen)
      then function_loop w cs' names_seen functions
      else function_loop w cs' ({[__name__ func]} ∪ names_seen)
                         (functions ++ [func])
  end.

Definition function (self : Debugger) (w : World)
    : Result (option Callable) :=
  functions ←!
    function_loop w (concat (map snd (collectors self))) ∅ [];
  match functions with
  | [f] => Ok (Some f)
  | _ => Ok None
  end.

End TarantulaDebugger.

(** ** Blocks and the [with] statement *)

(** A traced block is seen through the events the interpreter delivers to
    the trace callback while it runs, and the exception that leaves it. *)
Record Block := mkBlock {
  blk_events : list TraceEvent;
  blk_exc : option ExcInfo
}.

(** The interpreter hands an event to the callback in the trace slot.
    If the callback raises, the interpreter clears the slot, as
    [sys.settrace(None)] does, and the error goes to the traced program. *)
Definition deliver (ev : TraceEvent) (w : World) : World :=
  match trace_slot w with
  | Some (TraceOf c) =>
      match CoverageCollector._traceit c (ev_frame ev) (ev_kind ev) w with
      | (Ok _, w) => w
      | (Raise _, w) => settrace None w
      end
  | Some (OtherTrace _) | None => w
  end.

Definition run_events (evs : list TraceEvent) (w : World) : World :=
  foldl (λ w ev, deliver ev w) w evs.

(** How control leaves a [with] statement. *)
Inductive Completion :=
  | Normal                      (* no exception, or exception swallowed *)
  | Propagates (e : ExcInfo)    (* the block's exception is re-raised *)
  | Raises (e : PyError).       (* [__exit__] itself raised *)

Definition with_completion {A} (exit_result : Result A) (is_true : A → bool)
    (exc : option ExcInfo) : Completion :=
  match exit_result, exc with
  | Raise e, _ => Raises e
  | Ok v, Some e => if is_true v then Normal else Propagates e
  | Ok _, None => Normal
  end.

(** [with collector: block] *)
Definition with_collector (c : nat) (b : Block) (w : World)
    : Completion * World :=
  let w := CoverageCollector.__enter__ c w in
  let w := run_events (blk_events b) w in
  let '(res, w) := CoverageCollector.__exit__ c (blk_exc b) w in
  (with_completion res (default false) (blk_exc b), w).

(** [with debugger: block] *)
Definition with_debugger (self : Debugger) (b : Block) (w : World)
    : Completion * Debugger * World :=
  let '(self, w) := TarantulaDebugger.__enter__ self w in
  let w := run_events (blk_events b) w in
  let '(res, self, w) := TarantulaDebugger.__exit__ self (blk_exc b) w in
  (with_completion res id (blk_exc b), self, w).

(** An event qualifies for a collector when neither [_traceit] nor the
    loop over [items_to_ignore] drops it. *)
Definition qualifies (items : list Item) (ev : TraceEvent) : bool :=
  negb (CoverageCollector.our_frame (ev_frame ev))
  && negb (existsb (λ item, CoverageCollector.ignores item (ev_frame ev)) items).

(** The items a debugger session ignores. *)
Definition session_items : list Item :=
  [IType CoverageCollector.class_name; IType TarantulaDebugger.class_name].

Definition observes_call (items : list Item) (b : Block) : bool :=
  existsb (λ ev, qualifies items ev && bool_decide (ev_kind ev = Call))
          (blk_events b).

(** The unit [collect] records for a frame: found by name in the
    enclosing scopes, or synthesised. *)
Definition resolve_unit (c : nat) (frame : Frame) (w : World)
    : Result Callable :=
  match CoverageCollector.search_func (co_name (f_code frame)) frame with
  | Some found => Ok found
  | None => fst (CoverageCollector.create_function c frame w)
  end.

(** ** Reachable debugger states *)

(** States reached from a new debugger by completed [with debugger:]
    sessions. *)
Inductive session_reachable : Debugger → World → Prop :=
  | sr_init cls w : session_reachable (TarantulaDebugger.__init__ cls) w
  | sr_session d w b k d' w' :
      session_reachable d w →
      with_debugger d b w = (k, d', w') →
      session_reachable d' w'.

(** States reached through sessions, out-of-band [collect(outcome)], and
    running any collector as a context manager of its own. *)
Inductive reachable : Debugger → World → Prop :=
  | r_init cls w : reachable (TarantulaDebugger.__init__ cls) w
  | r_session d w b k d' w' :
      reachable d w →
      with_debugger d b w = (k, d', w') →
      reachable d' w'
  | r_collect d w outcome c d' w' :
      reachable d w →
      TarantulaDebugger.collect outcome d w = (c, d', w') →
      reachable d' w'
  | r_with_collector d w c b k w' :
      reachable d w →
      with_collector c b w = (k, w') →
      reachable d w'.

(** The key under which [create_function] caches the unit of a frame. *)
Definition cache_key (frame : Frame) : string * Z :=
  (co_name (f_code frame), f_lineno frame).

(** The collectors filed under an outcome, and all filed collectors in
    the order the loops of the debugger visit them. *)
Definition filed_under (d : Debugger) (outcome : string) : list nat :=
  default [] (dict_get outcome (collectors d)).

Definition filed (d : Debugger) : list nat :=
  concat (map snd (collectors d)).

(** ** Sample inputs *)

Module Sample.

(** A rendering that is Python's [repr] on [None] and on integers, the
    values the sample frames hold; others get a placeholder. *)
Definition render (v : Value) : Result string :=
  match v with
  | VNone => Ok "None"
  | VInt n => Ok (pretty n)
  | VStr _ | VFun _ | VObj _ _ => Ok "..."
  end.

(** A store with no collector yet; module-level functions [f] and [g]
    live at references 1 and 2.  The collector is the one of
    [CoverageCollector.py]. *)
Definition world0 : World :=
  {| heap := λ _, CoverageCollector.__init__ CoverageCollector_py;
     next_ref := 10;
     trace_slot := None;
     repr := render |}.

Definition debugger0 : Debugger :=
  TarantulaDebugger.__init__ CoverageCollector_py.

Definition module_globals : list (string * Value) :=
  [("f", VFun (Fn 1 "f")); ("g", VFun (Fn 2 "g"))].

Definition code_f : CodeObj := mkCode "f" [].
Definition code_g : CodeObj := mkCode "g" [].

Definition frame_at (code : CodeObj) (line : Z) (x : Z) : Frame :=
  mkFrame code line module_globals [("x", VInt x)] None.

(** [f(1)] runs lines 1 to 3 and returns. *)
Definition block_f : Block :=
  mkBlock [mkEvent (frame_at code_f 1 1) Call;
           mkEvent (frame_at code_f 2 1) Line;
           mkEvent (frame_at code_f 3 1) Line;
           mkEvent (frame_at code_f 3 1) Return] None.

(** [g(3)] raises on line 12. *)
Definition block_g_raises : Block :=
  mkBlock [mkEvent (frame_at code_g 11 3) Call;
           mkEvent (frame_at code_g 12 3) Line;
           mkEvent (frame_at code_g 12 3) Exception;
           mkEvent (frame_at code_g 12 3) Return]
          (Some (mkExc "ZeroDivisionError" [frame_at code_g 12 3])).

(** A block that calls nothing. *)
Definition block_empty : Block := mkBlock [] None.

(** A block that raises before any call. *)
Definition block_raise_only : Block :=
  mkBlock [] (Some (mkExc "RuntimeError" [])).

(** A frame of a collector method, and a block whose exception passed
    through it. *)
Definition tracer_frame : Frame :=
  mkFrame (mkCode "collect" []) 160 module_globals
          [("self", VObj ["CoverageCollector"; "object"] 10)] None.

Definition block_internal : Block :=
  mkBlock [mkEvent (frame_at code_f 1 1) Call]
          (Some (mkExc "AttributeError" [frame_at code_f 1 1; tracer_frame])).

End Sample.

(** The debugger as [__enter__] leaves it, and the world in which the
    block of a session has run, just before [__exit__]. *)
Definition entered (d : Debugger) (w : World) : Debugger :=
  {| collector_class := collector_class d;
     collectors := collectors d; collector := Some (next_ref w) |}.

Definition before_exit (d : Debugger) (b : Block) (w : World) : World :=
  run_events (blk_events b) (TarantulaDebugger.__enter__ d w).2.

(** ** Well-formed debugger states *)

(** What every reachable state satisfies: no outcome is bound to an empty
    list, outcomes are bound once, no collector is filed twice, and filed
    collectors are allocated objects. *)
Record wf (d : Debugger) (w : World) : Prop := mkWf {
  wf_nonempty : Forall (λ kv, kv.2 ≠ []) (collectors d);
  wf_keys : NoDup (map fst (collectors d));
  wf_nodup : NoDup (filed d);
  wf_alloc : Forall (λ c, (c < next_ref w)%nat) (filed d)
}.

(** Event [e] was observed by a collector filed under [outcome]. *)
Definition observed_under (d : Debugger) (w : World) (e : Event)
    (outcome : string) : Prop :=
  ∃ c, c ∈ filed_under d outcome ∧ e ∈ CoverageCollector.events (heap w c).

(** The collectors filed under [outcome] whose events contain [e]. *)
Definition runs_with_event (d : Debugger) (w : World) (e : Event)
    (outcome : string) : list nat :=
  filter (λ c, e ∈ CoverageCollector.events (heap w c))
         (filed_under d outcome).

(** States after one session on [f] and a second one on [g], used as
    sample inputs. *)
Module SampleRuns.

Definition after_f :=
  with_debugger Sample.debugger0 Sample.block_f Sample.world0.

Definition after_fg :=
  with_debugger after_f.1.2 Sample.block_g_raises after_f.2.

(** The same, followed by a collector filed with [collect_pass()] and
    never run. *)
Definition after_fg_collect :=
  TarantulaDebugger.collect_pass after_fg.1.2 after_fg.2.

End SampleRuns.



(** What holds, besides [wf], after completed sessions only: outcomes are
    PASS or FAIL, and every filed collector has recorded its first call. *)
Record session_inv (d : Debugger) (w : World) : Prop := mkSessionInv {
  si_keys :
    Forall (λ k, k = TarantulaDebugger.PASS ∨ k = TarantulaDebugger.FAIL)
           (map fst (collectors d));
  si_called : Forall (λ c, is_Some (_function (heap w c))) (filed d)
}.

(** The units [function()] keeps: the first of each name. *)
Fixpoint first_by_name (names_seen : gset string) (fs : list Callable)
    : list Callable :=
  match fs with
  | [] => []
  | f :: fs' =>
      if decide (__name__ f ∈ names_seen) then first_by_name names_seen fs'
      else f :: first_by_name ({[__name__ f]} ∪ names_seen) fs'
  end.

(** Two filed collectors whose first-call units have different names. *)
Definition two_names_observed (d : Debugger) (w : World) : Prop :=
  ∃ c1 c2 f1 f2,
    c1 ∈ filed d ∧ c2 ∈ filed d
    ∧ _function (heap w c1) = Some f1 ∧ _function (heap w c2) = Some f2
    ∧ __name__ f1 ≠ __name__ f2.

(** A relation between the world before and after some steps of a
    collector [c]: nothing but [c]'s first call, coverage and cache
    moves, and those only grow; the trace slot is as it was, or cleared
    after an error of the callback. *)
Record extends (c : nat) (w w' : World) : Prop := mkExtends {
  ext_slot : trace_slot w' = trace_slot w ∨ trace_slot w' = None;
  ext_repr : repr w' = repr w;
  ext_next : (next_ref w ≤ next_ref w')%nat;
  ext_other : ∀ c', c' ≠ c → heap w' c' = heap w c';
  ext_class : __class__ (heap w' c) = __class__ (heap w c);
  ext_original :
    original_trace_function (heap w' c) = original_trace_function (heap w c);
  ext_items : items_to_ignore (heap w' c) = items_to_ignore (heap w c);
  ext_coverage : _coverage (heap w c) ⊆ _coverage (heap w' c);
  ext_cache :
    _generated_function_cache (heap w c) ⊆ _generated_function_cache (heap w' c);
  ext_function :
    is_Some (_function (heap w c)) →
    _function (heap w' c) = _function (heap w c)
}.

(** Scenario D of the specification: ten filed runs of [f], four failing
    and six passing; line 7 is covered by two failing runs and one
    passing run. *)
Module ScenarioD.

Definition run_with (lines : list Z) : Collector :=
  {| __class__ := CoverageCollector_py;
     original_trace_function := None;
     _function := Some (Fn 1 "f");
     _args := Some [("x", VInt 1)];
     _argstring := Some "x=1";
     items_to_ignore := session_items;
     _coverage := list_to_set (map (λ l, (Fn 1 "f", l)) lines);
     _generated_function_cache := ∅ |}.

Definition world : World :=
  {| heap := λ c, if bool_decide (c ∈ [0; 1; 4]%nat)
                  then run_with [5; 7] else run_with [5];
     next_ref := 10;
     trace_slot := None;
     repr := Sample.render |}.

Definition debugger : Debugger :=
  {| collector_class := CoverageCollector_py;
     collectors := [("PASS", [4; 5; 6; 7; 8; 9]%nat);
                    ("FAIL", [0; 1; 2; 3]%nat)];
     collector := Some 9%nat |}.

End ScenarioD.

(** ** Further methods of the collector *)

(** [d[k] = v]: an existing key keeps its place, a new one goes last. *)
Fixpoint dict_set {V} (k : string) (v : V) (d : list (string * V))
    : list (string * V) :=
  match d with
  | [] => [(k, v)]
  | (k', v') :: d' =>
      if String.eqb k k' then (k', v) :: d' else (k', v') :: dict_set k v d'
  end.

Module CollectorMore.

(** [id]: [f"{self.function().__name__}({self.argstring()})"] *)
Definition id (c : Collector) : Result string :=
  func ←! CoverageCollector.function c;
  argstring ←! CoverageCollector.argstring c;
  Ok (__name__ func +:+ "(" +:+ argstring +:+ ")").

Section changed_vars.

(** The truth value of [last != new], or the error raised on the way. *)
Variable ne : Value → Value → Result bool.

(** The loop of [changed_vars] over [new_vars.items()]. *)
Fixpoint changed_loop (last_vars items changed : list (string * Value))
    : Result (list (string * Value)) :=
  match items with
  | [] => Ok changed
  | (var_name, var_value) :: items' =>
      differs ←! match dict_get var_name last_vars with
                 | None => Ok true
                 | Some last => ne last var_value
                 end;
      changed_loop last_vars items'
        (if differs then dict_set var_name var_value changed else changed)
  end.

(** [changed_vars], on the [last_vars] it reads and replaces: what it
    returns or raises, and the new [last_vars]. *)
Definition changed_vars (last_vars new_vars : list (string * Value))
    : Result (list (string * Value)) * list (string * Value) :=
  match changed_loop last_vars new_vars [] with
  | Ok changed => (Ok changed, new_vars)
  | Raise e => (Raise e, last_vars)
  end.

End changed_vars.

End CollectorMore.

(** ** Further methods of the debugger *)

Module DebuggerMore.




Definition coverage (self : Debugger) (w : World) : gset Location :=
  ⋃ (map (λ kv, ⋃ (map (λ c, CoverageCollector.coverage (heap w c)) kv.2))
         (collectors self)).

Definition covered_functions (self : Debugger) (w : World) : gset Callable :=
  ⋃ (map (λ kv, ⋃ (map (λ c, CoverageCollector.covered_functions (heap w c))
                       kv.2))
         (collectors self)).



End DebuggerMore.

(** ** Declarative counterparts *)

(** The frames [search_frame] visits: the frame and its callers. *)
Fixpoint chain (frame : Frame) : list Frame :=
  frame :: match f_back frame with
           | Some back => chain back
           | None => []
           end.

(** What a name denotes in a frame: the local binding if there is one,
    else the global one. *)
Definition binding (name : string) (frame : Frame) : option Value :=
  match dict_get name (f_locals frame) with
  | Some v => Some v
  | None => dict_get name (f_globals frame)
  end.

(** Whether [changed_vars] reports a binding of [new_vars], given what
    [!=] answers. *)
Definition reported (differs : Value → Value → bool)
    (last_vars : list (string * Value)) (kv : string * Value) : bool :=
  match dict_get kv.1 last_vars with
  | None => true
  | Some last => differs last kv.2
  end.

(** The first call a collector has recorded. *)
Definition first_call (c : Collector)
    : option Callable * option (list (string * Value)) * option string :=
  (_function c, _args c, _argstring c).

(** No event of the list is a qualifying call. *)
Definition no_call (items : list Item) (evs : list TraceEvent) : Prop :=
  existsb (λ ev, qualifies items ev && bool_decide (ev_kind ev = Call)) evs
  = false.

(** A state with a collector filed under a third label and run on [f]. *)
Module SampleOther.

Definition collected :=
  TarantulaDebugger.collect "OTHER" SampleRuns.after_fg.1.2
                            SampleRuns.after_fg.2.

Definition after_run :=
  with_collector collected.1.1
    (mkBlock [mkEvent (Sample.frame_at Sample.code_f 1 1) Call;
              mkEvent (Sample.frame_at Sample.code_f 4 1) Line] None)
    collected.2.

Definition debugger : Debugger := collected.1.2.
Definition world : World := after_run.2.

End SampleOther.

(** A store in which the collector at reference 10 exists and is new. *)
Module SampleMore.

Definition world1 : World :=
  {| heap := λ _, CoverageCollector.__init__ CoverageCollector_py;
     next_ref := 11;
     trace_slot := None;
     repr := Sample.render |}.

(** A frame of [helper], called from [f]; [f] binds the name [helper]
    locally to an integer, and the module defines [helper]. *)
Definition caller : Frame :=
  mkFrame Sample.code_f 2
          [("helper", VFun (Fn 3 "helper"))]
          [("helper", VInt 0)] None.

Definition callee : Frame :=
  mkFrame (mkCode "helper" []) 20 [] [("y", VInt 5)] (Some caller).

(** An answer of [!=] that is Python's on integers, strings and [None],
    and by identity on functions and objects. *)
Definition differs (a b : Value) : bool :=
  match a, b with
  | VNone, VNone => false
  | VInt x, VInt y => negb (x =? y)
  | VStr s, VStr t => negb (String.eqb s t)
  | VFun f, VFun g => negb (bool_decide (f = g))
  | VObj _ r, VObj _ r' => negb (r =? r')%nat
  | _, _ => true
  end.

Definition ne (a b : Value) : Result bool := Ok (differs a b).

End SampleMore.

(** A frame whose unit [create_function] can always make: the code has
    no free variables, or the class of the collector defines [unknown]. *)
Definition synthesizable (cls : CollectorClass) (frame : Frame) : bool :=
  match co_freevars (f_code frame), cls with
  | [], _ => true
  | _ :: _, TarantulaDebugger_py => true
  | _ :: _, CoverageCollector_py => false
  end.

(** The events of a block up to its first qualifying call: there is such
    a call, and the unit of every qualifying event up to and including it
    can be made. *)
Fixpoint records_call (cls : CollectorClass) (items : list Item)
    (evs : list TraceEvent) : bool :=
  match evs with
  | [] => false
  | ev :: evs' =>
      if qualifies items ev
      then synthesizable cls (ev_frame ev)
           && (bool_decide (ev_kind ev = Call) || records_call cls items evs')
      else records_call cls items evs'
  end.

(** A function that calls a lambda closing over its argument, and
    handles what the call raises:
<<
    def f(x):                  # 1
        try:                   # 2
            y = (lambda: x)()  # 3
        except Exception:      # 4
            y = 0              # 5
        return y               # 6
>>
    The events are those of a run in which the call on line 3 raises. *)
Module SampleClosure.

Definition f_at (line : Z) : Frame := Sample.frame_at Sample.code_f line 1.

Definition lambda_frame : Frame :=
  mkFrame (mkCode "<lambda>" ["x"]) 3 Sample.module_globals
          [("x", VInt 1)] (Some (f_at 3)).

Definition events : list TraceEvent :=
  [mkEvent (f_at 1) Call;
   mkEvent (f_at 2) Line;
   mkEvent (f_at 3) Line;
   mkEvent lambda_frame Call;
   mkEvent (f_at 4) Line;
   mkEvent (f_at 5) Line;
   mkEvent (f_at 6) Line;
   mkEvent (f_at 6) Return].

Definition block : Block := mkBlock events None.

(** The same store as [Sample.world0], with collectors of the class in
    [TarantulaDebugger.py]. *)
Definition world_with_unknown : World :=
  {| heap := λ _, CoverageCollector.__init__ TarantulaDebugger_py;
     next_ref := 10;
     trace_slot := None;
     repr := Sample.render |}.

End SampleClosure.

(** A unit made by the collector at [c]: its placeholder, or a function
    object allocated after the collector and below [bound]. *)
Definition synthesized_by (c : nat) (bound : nat) (f : Callable) : Prop :=
  f = Unknown c ∨ ∃ r n, f = Fn r n ∧ (c < r < bound)%nat.

(** All units a collector holds, cached or recorded as first call, were
    made by it. *)
Record units_ok (c : nat) (w : World) : Prop := mkUnitsOk {
  uo_alloc : (c < next_ref w)%nat;
  uo_cache :
    ∀ k g, _generated_function_cache (heap w c) !! k = Some g →
           synthesized_by c (next_ref w) g;
  uo_function :
    ∀ f, _function (heap w c) = Some f → synthesized_by c (next_ref w) f
}.

(** What completed sessions keep: the first-call unit of a filed
    collector was made by it, before any collector filed later existed. *)
Definition units_inv (d : Debugger) (w : World) : Prop :=
  ∀ c f, c ∈ filed d → _function (heap w c) = Some f →
         synthesized_by c (next_ref w) f
         ∧ ∀ c' r n, c' ∈ filed d → (c < c')%nat → f = Fn r n → (r < c')%nat.

(** * Properties *)

Global Arguments upd : simpl never.

Create Rewrite HintDb world.

(** ** The store *)

Lemma heap_upd_same r f w : heap (upd r f w) r = f (heap w r).
Proof. unfold upd; simpl. apply fn_lookup_insert. Qed.

Lemma heap_upd_other r r' f w : r ≠ r' → heap (upd r f w) r' = heap w r'.
Proof. intros ?. unfold upd; simpl. by apply fn_lookup_insert_ne. Qed.

Lemma next_ref_upd r f w : next_ref (upd r f w) = next_ref w.
Proof. done. Qed.

Lemma trace_slot_upd r f w : trace_slot (upd r f w) = trace_slot w.
Proof. done. Qed.

Lemma heap_upd r r' f w :
  heap (upd r f w) r' = if decide (r = r') then f (heap w r') else heap w r'.
Proof.
  case_decide; [subst; apply heap_upd_same | by apply heap_upd_other].
Qed.

Global Hint Rewrite heap_upd_same next_ref_upd trace_slot_upd : world.
Global Hint Rewrite heap_upd_other using congruence : world.

Ltac wsimpl := repeat (progress (cbn; autorewrite with world)).

Lemma repr_upd r f w : repr (upd r f w) = repr w.
Proof. done. Qed.

Global Hint Rewrite repr_upd : world.

(** ** What a trace step leaves alone *)

Lemma extends_refl c w : extends c w w.
Proof. split; auto. Qed.

Lemma extends_trans c w1 w2 w3 :
  extends c w1 w2 → extends c w2 w3 → extends c w1 w3.
Proof.
  intros [] []. split; try congruence; try (etrans; eassumption).
  - destruct ext_slot0 as [E0|E0], ext_slot1 as [E1|E1]; auto.
    + left. congruence.
    + right. congruence.
  - intros c' Hc'. rewrite ext_other1, ext_other0; done.
  - intros Hsome. rewrite ext_function1, ext_function0; try done.
    by rewrite ext_function0.
Qed.

(** Clearing the trace slot is within [extends]. *)
Lemma extends_settrace_None c w w' :
  extends c w w' → extends c w (settrace None w').
Proof. intros []. split; cbn; auto. Qed.

(** The cases of [create_function] on a key that is not cached. *)
Ltac create_function_cases c frame w :=
  unfold CoverageCollector.FunctionType, alloc, CoverageCollector.unknown;
  destruct (co_freevars (f_code frame)) as [|fv fvs] eqn:?;
    [|destruct (__class__ (heap w c)) eqn:?].

Lemma create_function_extends c frame w :
  extends c w (CoverageCollector.create_function c frame w).2.
Proof.
  unfold CoverageCollector.create_function.
  destruct (_generated_function_cache (heap w c) !! _) as [cached|] eqn:Hc;
    [apply extends_refl|].
  create_function_cases c frame w; [|apply extends_refl|].
  all: split; wsimpl; auto; try lia.
  all: try (intros c' Hc'; by wsimpl).
  all: by apply insert_subseteq.
Qed.

Lemma create_function_self c frame w :
  ∃ cache, heap (CoverageCollector.create_function c frame w).2 c =
           set_cache cache (heap w c).
Proof.
  unfold CoverageCollector.create_function.
  destruct (_generated_function_cache (heap w c) !! _) as [cached|] eqn:Hc.
  - exists (_generated_function_cache (heap w c)). cbn.
    by destruct (heap w c).
  - create_function_cases c frame w; wsimpl; eauto.
    exists (_generated_function_cache (heap w c)). by destruct (heap w c).
Qed.

(** [create_function] raises in one case only: the key is not cached,
    the code has free variables, and the class has no [unknown]; the
    store is then as it was. *)
Lemma create_function_raise c frame w e :
  (CoverageCollector.create_function c frame w).1 = Raise e →
  CoverageCollector.create_function c frame w
  = (Raise (AttributeError "unknown"), w)
  ∧ _generated_function_cache (heap w c) !! cache_key frame = None
  ∧ synthesizable (__class__ (heap w c)) frame = false.
Proof.
  unfold CoverageCollector.create_function, cache_key, synthesizable.
  destruct (_generated_function_cache (heap w c) !! _) as [cached|] eqn:Hc;
    [done|].
  create_function_cases c frame w; cbn; done.
Qed.

Lemma create_function_unsynthesizable c frame w :
  _generated_function_cache (heap w c) !! cache_key frame = None →
  synthesizable (__class__ (heap w c)) frame = false →
  CoverageCollector.create_function c frame w
  = (Raise (AttributeError "unknown"), w).
Proof.
  unfold CoverageCollector.create_function, cache_key, synthesizable.
  intros -> Hs. create_function_cases c frame w; cbn in *; done.
Qed.

Lemma create_function_ok c frame w :
  synthesizable (__class__ (heap w c)) frame = true →
  ∃ g, (CoverageCollector.create_function c frame w).1 = Ok g.
Proof.
  intros Hs.
  destruct (CoverageCollector.create_function c frame w).1 as [g|e] eqn:E;
    [eauto|].
  apply create_function_raise in E as (_ & _ & E). congruence.
Qed.

(** A new function object for a key that is not cached, when the code
    has no free variables. *)
Lemma create_function_new c frame w :
  _generated_function_cache (heap w c) !! cache_key frame = None →
  co_freevars (f_code frame) = [] →
  (CoverageCollector.create_function c frame w).1
  = Ok (Fn (next_ref w) (co_name (f_code frame)))
  ∧ next_ref (CoverageCollector.create_function c frame w).2
    = S (next_ref w).
Proof.
  unfold CoverageCollector.create_function, cache_key.
  intros -> Hfree. unfold CoverageCollector.FunctionType, alloc.
  rewrite Hfree. by wsimpl.
Qed.

Lemma resolve_unit_collect c frame event w :
  (CoverageCollector.collect c frame event w).1
  = (_ ←! resolve_unit c frame w; Ok tt).
Proof.
  unfold CoverageCollector.collect, resolve_unit.
  destruct (CoverageCollector.search_func _ frame) as [found|]; [done|].
  by destruct (CoverageCollector.create_function c frame w) as [[g|e] w1].
Qed.

Lemma collect_coverage c frame event w :
  _coverage (heap (CoverageCollector.collect c frame event w).2 c) =
  match resolve_unit c frame w with
  | Ok unit => _coverage (heap w c) ∪ {[ (unit, f_lineno frame) ]}
  | Raise _ => _coverage (heap w c)
  end.
Proof.
  unfold CoverageCollector.collect, resolve_unit.
  destruct (CoverageCollector.search_func _ frame) as [found|]; wsimpl; [done|].
  destruct (create_function_self c frame w) as [cache Hself].
  destruct (CoverageCollector.create_function c frame w) as [[g|e] w1]; wsimpl.
  all: cbn in Hself; by rewrite Hself.
Qed.

Lemma collect_extends c frame event w :
  extends c w (CoverageCollector.collect c frame event w).2.
Proof.
  unfold CoverageCollector.collect.
  pose proof (create_function_extends c frame w) as Hext.
  destruct (CoverageCollector.search_func _ frame) as [found|].
  - split; wsimpl; auto; try set_solver. intros; by wsimpl.
  - destruct (CoverageCollector.create_function c frame w) as [[g|e] w1];
      [|done].
    cbn in Hext. eapply extends_trans; [exact Hext|].
    split; wsimpl; auto; try set_solver. intros; by wsimpl.
Qed.

Lemma traceit_extends c frame event w :
  extends c w (CoverageCollector.traceit c frame event w).2.
Proof.
  unfold CoverageCollector.traceit.
  destruct (existsb _ _); [apply extends_refl|].
  destruct (_function (heap w c)) as [f|] eqn:Hf; [apply collect_extends|].
  destruct event; try apply collect_extends.
  pose proof (create_function_extends c frame w) as Hext.
  destruct (create_function_self c frame w) as [cache Hself].
  destruct (CoverageCollector.create_function c frame w) as [[g|e] w1];
    [|done].
  cbn in Hext, Hself.
  assert (extends c w (upd c (set_args (f_locals frame))
                         (upd c (set_function g) w1))) as H2.
  { eapply extends_trans; [exact Hext|].
    split; wsimpl; auto.
    - intros; by wsimpl.
    - rewrite Hself. cbn. rewrite Hf. by intros [? ?]. }
  destruct (CoverageCollector.argstring_of _ _) as [s|e]; [|exact H2].
  eapply extends_trans; [|apply collect_extends].
  eapply extends_trans; [exact H2|].
  split; wsimpl; auto. intros; by wsimpl.
Qed.

Lemma _traceit_extends c frame event w :
  extends c w (CoverageCollector._traceit c frame event w).2.
Proof.
  unfold CoverageCollector._traceit.
  destruct (CoverageCollector.our_frame frame);
    [apply extends_refl | apply traceit_extends].
Qed.

(** The methods of the collector leave the trace slot alone. *)
Lemma create_function_slot c frame w :
  trace_slot (CoverageCollector.create_function c frame w).2 = trace_slot w.
Proof.
  unfold CoverageCollector.create_function.
  destruct (_generated_function_cache (heap w c) !! _); [done|].
  by create_function_cases c frame w.
Qed.

Lemma collect_slot c frame event w :
  trace_slot (CoverageCollector.collect c frame event w).2 = trace_slot w.
Proof.
  unfold CoverageCollector.collect.
  destruct (CoverageCollector.search_func _ frame) as [found|]; [done|].
  pose proof (create_function_slot c frame w) as Hs.
  by destruct (CoverageCollector.create_function c frame w) as [[g|e] w1].
Qed.

Lemma traceit_slot c frame event w :
  trace_slot (CoverageCollector.traceit c frame event w).2 = trace_slot w.
Proof.
  unfold CoverageCollector.traceit.
  destruct (existsb _ _); [done|].
  destruct (_function (heap w c)) as [f|]; [apply collect_slot|].
  destruct event; try apply collect_slot.
  pose proof (create_function_slot c frame w) as Hs.
  destruct (CoverageCollector.create_function c frame w) as [[g|e] w1];
    [|done].
  destruct (CoverageCollector.argstring_of _ _) as [s|e]; [|done].
  by rewrite collect_slot.
Qed.

Lemma _traceit_slot c frame event w :
  trace_slot (CoverageCollector._traceit c frame event w).2 = trace_slot w.
Proof.
  unfold CoverageCollector._traceit.
  destruct (CoverageCollector.our_frame frame); [done|apply traceit_slot].
Qed.

(** What [deliver] does while [c] is the installed callback: the
    callback returns and stays installed, or it raises and the slot is
    cleared. *)
Lemma deliver_cases c ev w :
  trace_slot w = Some (TraceOf c) →
  let r := CoverageCollector._traceit c (ev_frame ev) (ev_kind ev) w in
  (r.1 = Ok tt ∧ deliver ev w = r.2
   ∧ trace_slot (deliver ev w) = Some (TraceOf c))
  ∨ ((∃ e, r.1 = Raise e) ∧ deliver ev w = settrace None r.2
     ∧ trace_slot (deliver ev w) = None).
Proof.
  intros Hs r. subst r. unfold deliver. rewrite Hs.
  pose proof (_traceit_slot c (ev_frame ev) (ev_kind ev) w) as Hslot.
  destruct (CoverageCollector._traceit c _ _ w) as [[[]|e] w1]; cbn in *.
  - left. repeat split. congruence.
  - right. eauto.
Qed.

Lemma deliver_extends c ev w :
  trace_slot w = Some (TraceOf c) → extends c w (deliver ev w).
Proof.
  intros Hs.
  pose proof (_traceit_extends c (ev_frame ev) (ev_kind ev) w) as Hext.
  destruct (deliver_cases c ev w Hs) as [(_ & -> & _)|(_ & -> & _)];
    [done|by apply extends_settrace_None].
Qed.

(** With no collector in the slot, events reach no one. *)
Lemma run_events_off evs w :
  trace_slot w = None → run_events evs w = w.
Proof.
  intros Hs. induction evs as [|ev evs IH]; [done|].
  cbn. unfold deliver at 2. by rewrite Hs.
Qed.

Lemma run_events_cons ev evs w :
  run_events (ev :: evs) w = run_events evs (deliver ev w).
Proof. done. Qed.

Lemma run_events_extends c evs w :
  trace_slot w = Some (TraceOf c) → extends c w (run_events evs w).
Proof.
  revert w. induction evs as [|ev evs IH]; intros w Hs; [apply extends_refl|].
  rewrite run_events_cons. pose proof (deliver_extends c ev w Hs) as Hd.
  destruct (deliver_cases c ev w Hs) as [(_ & _ & Hs')|(_ & _ & Hs')].
  - eapply extends_trans; [exact Hd|]. by apply IH.
  - by rewrite run_events_off.
Qed.

(** The slot after some events: the collector is still installed, or the
    slot is empty. *)
Lemma run_events_slot c evs w :
  trace_slot w = Some (TraceOf c) →
  trace_slot (run_events evs w) = Some (TraceOf c)
  ∨ trace_slot (run_events evs w) = None.
Proof.
  intros Hs. destruct (ext_slot _ _ _ (run_events_extends c evs w Hs));
    [left; congruence|by right].
Qed.

(** A collector that is installed after some events was installed
    before each of them. *)
Lemma run_events_slot_before c evs1 evs2 w :
  trace_slot w = Some (TraceOf c) →
  trace_slot (run_events (evs1 ++ evs2) w) = Some (TraceOf c) →
  trace_slot (run_events evs1 w) = Some (TraceOf c).
Proof.
  intros Hs H2. unfold run_events in *. rewrite foldl_app in H2.
  fold (run_events evs1 w) in *. fold (run_events evs2 (run_events evs1 w)) in H2.
  destruct (run_events_slot c evs1 w Hs) as [|Hoff]; [done|].
  rewrite (run_events_off evs2 _ Hoff) in H2. congruence.
Qed.

Lemma run_events_app evs1 evs2 w :
  run_events (evs1 ++ evs2) w = run_events evs2 (run_events evs1 w).
Proof. unfold run_events. by rewrite foldl_app. Qed.

(** ** The cache of synthesised units *)

Lemma create_function_cached c frame w g :
  _generated_function_cache (heap w c) !! cache_key frame = Some g →
  CoverageCollector.create_function c frame w = (Ok g, w).
Proof.
  intros Hc. unfold CoverageCollector.create_function.
  unfold cache_key in Hc. by rewrite Hc.
Qed.

Lemma create_function_caches c frame w g :
  (CoverageCollector.create_function c frame w).1 = Ok g →
  _generated_function_cache
    (heap (CoverageCollector.create_function c frame w).2 c)
    !! cache_key frame
  = Some g.
Proof.
  unfold CoverageCollector.create_function, cache_key.
  destruct (_generated_function_cache (heap w c) !! _) as [cached|] eqn:Hc;
    [by intros [= <-]|].
  create_function_cases c frame w; wsimpl; intros [= <-].
  all: by rewrite lookup_insert_eq.
Qed.

Lemma extends_cached c w w' k g :
  extends c w w' →
  _generated_function_cache (heap w c) !! k = Some g →
  _generated_function_cache (heap w' c) !! k = Some g.
Proof.
  intros Hext Hk. eapply lookup_weaken; [exact Hk|]. apply Hext.
Qed.

(** ** What one trace step records *)

(** A frame whose unit cannot be made stops [traceit] before it changes
    anything. *)
Lemma traceit_unresolved c frame event w e :
  existsb (λ item, CoverageCollector.ignores item frame)
          (items_to_ignore (heap w c)) = false →
  resolve_unit c frame w = Raise e →
  CoverageCollector.traceit c frame event w = (Raise e, w).
Proof.
  unfold resolve_unit. intros Hq Hres.
  destruct (CoverageCollector.search_func _ frame) as [found|] eqn:Hsearch;
    [done|].
  destruct (create_function_raise c frame w e Hres) as (Hcf & _ & _).
  rewrite Hcf in Hres. cbn in Hres.
  unfold CoverageCollector.traceit. rewrite Hq.
  assert (CoverageCollector.collect c frame event w = (Raise e, w)) as Hcol.
  { unfold CoverageCollector.collect. rewrite Hsearch, Hcf. congruence. }
  destruct (_function (heap w c)) as [f|]; [done|].
  destruct event; try done. rewrite Hcf. congruence.
Qed.

Lemma traceit_records c frame event w :
  existsb (λ item, CoverageCollector.ignores item frame)
          (items_to_ignore (heap w c)) = false →
  (CoverageCollector.traceit c frame event w).1 = Ok tt →
  ∃ unit, resolve_unit c frame w = Ok unit
          ∧ (unit, f_lineno frame)
              ∈ _coverage (heap (CoverageCollector.traceit c frame event w).2 c).
Proof.
  intros Hq. unfold CoverageCollector.traceit. rewrite Hq.
  assert (∀ w0,
    (CoverageCollector.collect c frame event w0).1 = Ok tt →
    ∃ unit, resolve_unit c frame w0 = Ok unit
            ∧ (unit, f_lineno frame)
                ∈ _coverage (heap (CoverageCollector.collect c frame event w0).2
                                  c)) as Hcollect.
  { intros w0 Hok. rewrite resolve_unit_collect in Hok.
    rewrite collect_coverage.
    destruct (resolve_unit c frame w0) as [u|e]; [|done].
    exists u. split; [done|]. apply elem_of_union_r. by apply elem_of_singleton. }
  destruct (_function (heap w c)) as [f|] eqn:Hf; [apply Hcollect|].
  destruct event; try apply Hcollect.
  pose proof (create_function_caches c frame w) as Hc.
  destruct (CoverageCollector.create_function c frame w) as [[g|e] w1] eqn:Hcf;
    [|done].
  specialize (Hc g eq_refl). cbn [fst snd] in Hc.
  destruct (CoverageCollector.argstring_of _ _) as [s|e]; [|done].
  intros Hok. destruct (Hcollect _ Hok) as (u & Hu & Hin).
  exists u. split; [|done].
  unfold resolve_unit in *.
  destruct (CoverageCollector.search_func _ frame) as [found|]; [done|].
  rewrite Hcf. cbn [fst].
  erewrite create_function_cached in Hu; [done|]. by wsimpl.
Qed.

(** A step of the callback that raises adds nothing to the coverage. *)
Lemma traceit_raise_coverage c frame event w e :
  (CoverageCollector.traceit c frame event w).1 = Raise e →
  _coverage (heap (CoverageCollector.traceit c frame event w).2 c)
  = _coverage (heap w c).
Proof.
  unfold CoverageCollector.traceit.
  destruct (existsb _ _); [done|].
  assert (∀ w0,
    (CoverageCollector.collect c frame event w0).1 = Raise e →
    _coverage (heap (CoverageCollector.collect c frame event w0).2 c)
    = _coverage (heap w0 c)) as Hcollect.
  { intros w0 Hr. rewrite resolve_unit_collect in Hr. rewrite collect_coverage.
    by destruct (resolve_unit c frame w0). }
  destruct (_function (heap w c)) as [f|] eqn:Hf; [apply Hcollect|].
  destruct event; try apply Hcollect.
  destruct (create_function_self c frame w) as [cache Hself].
  destruct (CoverageCollector.create_function c frame w) as [[g|e'] w1];
    cbn in Hself; [|intros _; cbn; by rewrite Hself].
  destruct (CoverageCollector.argstring_of _ _) as [s|e'].
  - intros Hr. rewrite (Hcollect _ Hr). wsimpl. by rewrite Hself.
  - intros _. wsimpl. by rewrite Hself.
Qed.

Lemma deliver_records c ev w :
  trace_slot w = Some (TraceOf c) →
  qualifies (items_to_ignore (heap w c)) ev = true →
  trace_slot (deliver ev w) = Some (TraceOf c) →
  ∃ unit, resolve_unit c (ev_frame ev) w = Ok unit
          ∧ (unit, f_lineno (ev_frame ev)) ∈ _coverage (heap (deliver ev w) c).
Proof.
  intros Hs Hq Hs'.
  destruct (deliver_cases c ev w Hs) as [(Hok & Hd & _)|(_ & _ & Hoff)];
    [|congruence].
  rewrite Hd. clear Hd Hs'.
  unfold qualifies in Hq. apply andb_true_iff in Hq as [Hour Hign].
  apply negb_true_iff in Hour, Hign.
  unfold CoverageCollector._traceit in *. rewrite Hour in *.
  by apply traceit_records.
Qed.

(** A qualifying event whose unit is neither found nor cached and cannot
    be made: the callback raises, the store keeps its objects, and the
    slot is cleared. *)
Lemma deliver_unresolved c ev w :
  trace_slot w = Some (TraceOf c) →
  qualifies (items_to_ignore (heap w c)) ev = true →
  CoverageCollector.search_func (co_name (f_code (ev_frame ev))) (ev_frame ev)
  = None →
  _generated_function_cache (heap w c) !! cache_key (ev_frame ev) = None →
  synthesizable (__class__ (heap w c)) (ev_frame ev) = false →
  CoverageCollector._traceit c (ev_frame ev) (ev_kind ev) w
  = (Raise (AttributeError "unknown"), w)
  ∧ deliver ev w = settrace None w.
Proof.
  intros Hs Hq Hsearch Hcache Hsyn.
  pose proof (create_function_unsynthesizable c _ w Hcache Hsyn) as Hcf.
  assert (resolve_unit c (ev_frame ev) w = Raise (AttributeError "unknown"))
    as Hres by (unfold resolve_unit; by rewrite Hsearch, Hcf).
  unfold qualifies in Hq. apply andb_true_iff in Hq as [Hour Hign].
  apply negb_true_iff in Hour, Hign.
  assert (CoverageCollector._traceit c (ev_frame ev) (ev_kind ev) w
          = (Raise (AttributeError "unknown"), w)) as Htr.
  { unfold CoverageCollector._traceit. rewrite Hour.
    by apply traceit_unresolved. }
  split; [done|]. unfold deliver. by rewrite Hs, Htr.
Qed.

Lemma events_mono (c1 c2 : Collector) :
  _coverage c1 ⊆ _coverage c2 →
  CoverageCollector.events c1 ⊆ CoverageCollector.events c2.
Proof. intros Hsub. unfold CoverageCollector.events. by apply set_map_mono. Qed.

Lemma elem_of_events (c : Collector) (u : Callable) (l : Z) :
  (u, l) ∈ _coverage c → (__name__ u, l) ∈ CoverageCollector.events c.
Proof.
  intros Hin. unfold CoverageCollector.events.
  apply elem_of_map. by exists (u, l).
Qed.

(** C9. While a collector [c] is the installed trace callback, its
    coverage never shrinks, but not every executed line gets into it.
    (1) The collect step adds exactly the location (unit, current line)
    of the frame when the unit resolves, and nothing when it does not.
    (2) Whatever the block executes next, the coverage stays a superset
    of what it was, so neither the number of locations nor the number of
    distinct (name, line) events decreases.
    (3) A qualifying event at line [L] of a frame on which the callback
    returns has (unit, L) in the final coverage and (unit name, L) in the
    final events.
    (4) In the class that does not define [unknown], a qualifying event
    whose unit is neither found by name nor cached and whose code has
    free variables makes the callback raise: the event is not recorded,
    the slot is cleared, and no later event of the block is recorded
    either. *)
Theorem coverage_only_grows (c : nat) (w : World) :
  trace_slot w = Some (TraceOf c) →
  (∀ frame event w0,
     _coverage (heap (CoverageCollector.collect c frame event w0).2 c) =
     match resolve_unit c frame w0 with
     | Ok unit => _coverage (heap w0 c) ∪ {[ (unit, f_lineno frame) ]}
     | Raise _ => _coverage (heap w0 c)
     end)
  ∧ (∀ evs evs',
       let w1 := run_events evs w in
       let w2 := run_events (evs ++ evs') w in
       _coverage (heap w1 c) ⊆ _coverage (heap w2 c)
       ∧ (size (_coverage (heap w1 c)) ≤ size (_coverage (heap w2 c)))%nat
       ∧ (size (CoverageCollector.events (heap w1 c))
          ≤ size (CoverageCollector.events (heap w2 c)))%nat)
  ∧ (∀ evs1 ev evs2,
       qualifies (items_to_ignore (heap w c)) ev = true →
       let w1 := run_events evs1 w in
       let w2 := run_events (evs1 ++ ev :: evs2) w in
       let L := f_lineno (ev_frame ev) in
       trace_slot (deliver ev w1) = Some (TraceOf c) →
       ∃ U, resolve_unit c (ev_frame ev) w1 = Ok U
            ∧ (U, L) ∈ CoverageCollector.coverage (heap w2 c)
            ∧ (__name__ U, L) ∈ CoverageCollector.events (heap w2 c))
  ∧ (∀ evs1 ev evs2,
       qualifies (items_to_ignore (heap w c)) ev = true →
       let w1 := run_events evs1 w in
       let w2 := run_events (evs1 ++ ev :: evs2) w in
       trace_slot w1 = Some (TraceOf c) →
       CoverageCollector.search_func (co_name (f_code (ev_frame ev)))
                                     (ev_frame ev) = None →
       _generated_function_cache (heap w1 c) !! cache_key (ev_frame ev)
       = None →
       synthesizable (__class__ (heap w c)) (ev_frame ev) = false →
       CoverageCollector._traceit c (ev_frame ev) (ev_kind ev) w1
       = (Raise (AttributeError "unknown"), w1)
       ∧ w2 = settrace None w1
       ∧ CoverageCollector.coverage (heap w2 c)
         = CoverageCollector.coverage (heap w1 c)).
Proof.
  intros Hs. split; [|split; [|split]].
  - intros. apply collect_coverage.
  - intros evs evs' w1 w2. subst w1 w2. rewrite run_events_app.
    assert (_coverage (heap (run_events evs w) c)
            ⊆ _coverage (heap (run_events evs' (run_events evs w)) c)) as Hsub.
    { destruct (run_events_slot c evs w Hs) as [Hs1|Hoff].
      - apply (ext_coverage _ _ _ (run_events_extends c evs' _ Hs1)).
      - by rewrite (run_events_off evs' _ Hoff). }
    split; [done|]. split.
    + by apply subseteq_size.
    + by apply subseteq_size, events_mono.
  - intros evs1 ev evs2 Hq w1 w2 L Hs2. subst w1 w2 L.
    rewrite run_events_app, run_events_cons.
    pose proof (run_events_extends c evs1 w Hs) as H1.
    assert (trace_slot (run_events evs1 w) = Some (TraceOf c)) as Hs1.
    { destruct (run_events_slot c evs1 w Hs) as [|Hoff]; [done|].
      unfold deliver in Hs2. rewrite Hoff in Hs2. congruence. }
    rewrite <- (ext_items _ _ _ H1) in Hq.
    destruct (deliver_records c ev _ Hs1 Hq Hs2) as (U & HU & Hin).
    pose proof (run_events_extends c evs2 _ Hs2) as H2.
    apply (ext_coverage _ _ _ H2) in Hin.
    exists U. split; [done|]. split; [done|]. by apply elem_of_events.
  - intros evs1 ev evs2 Hq w1 w2 Hs1 Hsearch Hcache Hsyn. subst w1 w2.
    rewrite run_events_app, run_events_cons.
    pose proof (run_events_extends c evs1 w Hs) as H1.
    rewrite <- (ext_items _ _ _ H1) in Hq.
    rewrite <- (ext_class _ _ _ H1) in Hsyn.
    destruct (deliver_unresolved c ev _ Hs1 Hq Hsearch Hcache Hsyn)
      as [Htr Hd].
    rewrite Hd, (run_events_off evs2 (settrace None _)) by done. done.
Qed.

(** ** Memoisation of synthesised units *)

Lemma deliver_cached c ev w k g :
  _generated_function_cache (heap w c) !! k = Some g →
  _generated_function_cache (heap (deliver ev w) c) !! k = Some g.
Proof.
  intros Hk.
  destruct (trace_slot w) as [[c'|]|] eqn:Hs;
    try (unfold deliver; by rewrite Hs).
  pose proof (deliver_extends c' ev w Hs) as Hext.
  destruct (decide (c' = c)) as [->|Hne].
  - by eapply extends_cached.
  - by rewrite (ext_other _ _ _ Hext c) by congruence.
Qed.

Lemma run_events_cached c evs w k g :
  _generated_function_cache (heap w c) !! k = Some g →
  _generated_function_cache (heap (run_events evs w) c) !! k = Some g.
Proof.
  revert w. induction evs as [|ev evs IH]; intros w Hk; [done|].
  cbn. apply IH. by apply deliver_cached.
Qed.

(** C7 (as the code has it). The cache of a collector is keyed by the
    code name and the frame's current line number [f_lineno].  Once
    [create_function] has returned a unit for a frame, every later
    resolution by the same collector of a frame with the same name at the
    same line, after any number of trace events, returns the identical
    unit object and leaves the store as it is.  The same code, without
    free variables, resolved at two different lines of which neither is
    cached yet, gives two different units. *)
Theorem create_function_memoized (c : nat) (w : World)
    (frame1 frame2 : Frame) (evs : list TraceEvent) :
  (∀ unit1,
     co_name (f_code frame1) = co_name (f_code frame2) →
     f_lineno frame1 = f_lineno frame2 →
     (CoverageCollector.create_function c frame1 w).1 = Ok unit1 →
     let w1 := (CoverageCollector.create_function c frame1 w).2 in
     let w2 := run_events evs w1 in
     CoverageCollector.create_function c frame2 w2 = (Ok unit1, w2))
  ∧ (f_code frame1 = f_code frame2 →
     f_lineno frame1 ≠ f_lineno frame2 →
     co_freevars (f_code frame1) = [] →
     _generated_function_cache (heap w c) !! cache_key frame1 = None →
     _generated_function_cache (heap w c) !! cache_key frame2 = None →
     let w1 := (CoverageCollector.create_function c frame1 w).2 in
     ∃ unit1 unit2,
       (CoverageCollector.create_function c frame1 w).1 = Ok unit1
       ∧ (CoverageCollector.create_function c frame2 w1).1 = Ok unit2
       ∧ unit1 ≠ unit2).
Proof.
  split.
  - intros unit1 Hname Hline Hok w1 w2. subst w1 w2.
    apply create_function_cached. apply run_events_cached.
    replace (cache_key frame2) with (cache_key frame1)
      by (unfold cache_key; congruence).
    by apply create_function_caches.
  - intros Hcode Hline Hfree Hc1 Hc2 w1. subst w1.
    destruct (create_function_new c frame1 w Hc1 Hfree) as [H1 Hnext].
    assert (_generated_function_cache
              (heap (CoverageCollector.create_function c frame1 w).2 c)
              !! cache_key frame2 = None) as Hc2'.
    { revert Hc2. unfold CoverageCollector.create_function.
      unfold cache_key in Hc1. rewrite Hc1.
      unfold CoverageCollector.FunctionType, alloc. rewrite Hfree. wsimpl.
      intros Hc2. rewrite lookup_insert_ne; [done|].
      unfold cache_key. congruence. }
    rewrite Hcode in Hfree.
    destruct (create_function_new c frame2 _ Hc2' Hfree) as [H2 _].
    eexists _, _. split; [exact H1|]. split; [exact H2|].
    rewrite Hnext. intros [= E _]. lia.
Qed.

Lemma create_function_memoized_witness :
  let frame1 := Sample.frame_at Sample.code_f 2 1 in
  let frame2 := Sample.frame_at Sample.code_f 2 7 in
  let frame3 := Sample.frame_at Sample.code_f 3 1 in
  let evs := blk_events Sample.block_f in
  let w1 := (CoverageCollector.create_function 10 frame1 Sample.world0).2 in
  (co_name (f_code frame1) = co_name (f_code frame2)
   ∧ f_lineno frame1 = f_lineno frame2
   ∧ (CoverageCollector.create_function 10 frame1 Sample.world0).1
     = Ok (Fn 10 "f")
   ∧ CoverageCollector.create_function 10 frame2 (run_events evs w1)
     = (Ok (Fn 10 "f"), run_events evs w1))
  ∧ (f_code frame1 = f_code frame3
     ∧ f_lineno frame1 ≠ f_lineno frame3
     ∧ ∃ unit1 unit3,
         (CoverageCollector.create_function 10 frame1 Sample.world0).1
         = Ok unit1
         ∧ (CoverageCollector.create_function 10 frame3 w1).1 = Ok unit3
         ∧ unit1 ≠ unit3).
Proof.
  intros frame1 frame2 frame3 evs w1. split.
  - split; [reflexivity|]. split; [reflexivity|]. split; [reflexivity|].
    exact (proj1 (create_function_memoized 10 Sample.world0 frame1 frame2 evs)
             (Fn 10 "f") eq_refl eq_refl eq_refl).
  - split; [reflexivity|]. split; [discriminate|].
    exact (proj2 (create_function_memoized 10 Sample.world0 frame1 frame3 [])
             eq_refl ltac:(discriminate) eq_refl eq_refl eq_refl).
Defined.

(** C7 (as stated) fails: the same code object resolved while the frame
    is at line 1 and again at line 2 gives two different function
    objects, because the cache key holds the current line. *)
Lemma create_function_same_code_two_lines :
  ¬ (∀ (c : nat) (w : World) (frame1 frame2 : Frame),
       f_code frame1 = f_code frame2 →
       (CoverageCollector.create_function c frame2
          (CoverageCollector.create_function c frame1 w).2).1
       = (CoverageCollector.create_function c frame1 w).1).
Proof.
  intros H.
  specialize (H 10%nat Sample.world0 (Sample.frame_at Sample.code_f 1 1)
                (Sample.frame_at Sample.code_f 2 1) eq_refl).
  vm_compute in H. discriminate H.
Qed.

Ltac by_compute :=
  match goal with
  | |- ?P => apply (bool_decide_eq_true_1 P); vm_compute; reflexivity
  end.

(** The sample run of [SampleClosure] under the collector of
    [CoverageCollector.py]: the call of the lambda on line 3 makes the
    callback raise, and lines 4 to 6 of [f], executed afterwards, are not
    in the coverage. *)
Lemma coverage_only_grows_witness :
  let w := CoverageCollector.__enter__ 10 Sample.world0 in
  let evs1 := [mkEvent (SampleClosure.f_at 1) Call;
               mkEvent (SampleClosure.f_at 2) Line;
               mkEvent (SampleClosure.f_at 3) Line] in
  let ev := mkEvent SampleClosure.lambda_frame Call in
  let evs2 := [mkEvent (SampleClosure.f_at 4) Line;
               mkEvent (SampleClosure.f_at 5) Line;
               mkEvent (SampleClosure.f_at 6) Line;
               mkEvent (SampleClosure.f_at 6) Return] in
  let w1 := run_events evs1 w in
  let w2 := run_events (evs1 ++ ev :: evs2) w in
  (trace_slot w = Some (TraceOf 10)
   ∧ qualifies (items_to_ignore (heap w 10)) ev = true
   ∧ trace_slot w1 = Some (TraceOf 10)
   ∧ CoverageCollector.search_func (co_name (f_code (ev_frame ev)))
                                   (ev_frame ev) = None
   ∧ _generated_function_cache (heap w1 10) !! cache_key (ev_frame ev) = None
   ∧ synthesizable (__class__ (heap w 10)) (ev_frame ev) = false)
  ∧ CoverageCollector._traceit 10 (ev_frame ev) (ev_kind ev) w1
    = (Raise (AttributeError "unknown"), w1)
  ∧ w2 = settrace None w1
  ∧ CoverageCollector.coverage (heap w2 10)
    = CoverageCollector.coverage (heap w1 10)
  ∧ (Fn 1 "f", 5) ∉ CoverageCollector.coverage (heap w1 10).
Proof.
  intros w evs1 ev evs2 w1 w2.
  assert (trace_slot w1 = Some (TraceOf 10)) as Hs1
    by (vm_compute; reflexivity).
  assert (_generated_function_cache (heap w1 10) !! cache_key (ev_frame ev)
          = None) as Hcache by (vm_compute; reflexivity).
  split; [repeat split; solve [reflexivity | exact Hs1 | exact Hcache]|].
  destruct (proj2 (proj2 (proj2 (coverage_only_grows 10 w eq_refl)))
              evs1 ev evs2 eq_refl Hs1 eq_refl Hcache eq_refl)
    as (Htr & Hw2 & Hcov).
  split; [exact Htr|]. split; [exact Hw2|]. split; [exact Hcov|].
  by_compute.
Defined.

(** ** Entering and leaving a session *)

Lemma enter_slot c w :
  trace_slot (CoverageCollector.__enter__ c w) = Some (TraceOf c).
Proof. done. Qed.

Lemma enter_heap c w :
  heap (CoverageCollector.__enter__ c w) c =
  set_original (trace_slot w) (heap w c).
Proof. unfold CoverageCollector.__enter__, settrace. by wsimpl. Qed.

Lemma exit_slot c exc w :
  trace_slot (CoverageCollector.__exit__ c exc w).2 =
  original_trace_function (heap w c).
Proof.
  unfold CoverageCollector.__exit__, settrace; cbn.
  destruct (_function (heap w c)); [done|]. by destruct exc.
Qed.

Lemma exit_heap c exc w :
  heap (CoverageCollector.__exit__ c exc w).2 = heap w.
Proof.
  unfold CoverageCollector.__exit__, settrace; cbn.
  destruct (_function (heap w c)); [done|]. by destruct exc.
Qed.

Lemma exit_next_ref c exc w :
  next_ref (CoverageCollector.__exit__ c exc w).2 = next_ref w.
Proof.
  unfold CoverageCollector.__exit__, settrace; cbn.
  destruct (_function (heap w c)); [done|]. by destruct exc.
Qed.

Lemma with_collector_slot c b w :
  trace_slot (with_collector c b w).2 = trace_slot w.
Proof.
  unfold with_collector.
  pose proof (run_events_extends c (blk_events b) _ (enter_slot c w)) as Hext.
  pose proof (exit_slot c (blk_exc b)
                (run_events (blk_events b) (CoverageCollector.__enter__ c w)))
    as Hexit.
  destruct (CoverageCollector.__exit__ _ _ _) as [res w3]. cbn [fst snd] in *.
  rewrite Hexit, (ext_original _ _ _ Hext), enter_heap. done.
Qed.

(** The world in which the block of [with debugger:] starts: a fresh
    collector at the next free reference, installed as trace callback. *)
Lemma debugger_enter d w :
  TarantulaDebugger.__enter__ d w =
  (entered d w, (TarantulaDebugger.__enter__ d w).2)
  ∧ trace_slot (TarantulaDebugger.__enter__ d w).2
    = Some (TraceOf (next_ref w))
  ∧ heap (TarantulaDebugger.__enter__ d w).2 (next_ref w)
    = set_original (trace_slot w)
        (set_items session_items
           (CoverageCollector.__init__ (collector_class d)))
  ∧ next_ref (TarantulaDebugger.__enter__ d w).2 = S (next_ref w)
  ∧ (∀ c, c ≠ next_ref w →
          heap (TarantulaDebugger.__enter__ d w).2 c = heap w c).
Proof.
  unfold TarantulaDebugger.__enter__, alloc,
    CoverageCollector.add_items_to_ignore, CoverageCollector.__enter__,
    settrace.
  repeat split; wsimpl; try done. intros c Hc. by wsimpl.
Qed.

Lemma with_debugger_slot d b w :
  trace_slot (with_debugger d b w).2 = trace_slot w.
Proof.
  unfold with_debugger.
  destruct (debugger_enter d w) as (Henter & Hslot & Hheap & _).
  rewrite Henter.
  set (w1 := (TarantulaDebugger.__enter__ d w).2) in *.
  pose proof (run_events_extends _ (blk_events b) w1 Hslot) as Hext.
  unfold TarantulaDebugger.__exit__, entered; cbn [collector].
  pose proof (exit_slot (next_ref w) (blk_exc b)
                (run_events (blk_events b) w1)) as Hexit.
  destruct (CoverageCollector.__exit__ _ _ _) as [[[?|]|?] w3];
    cbn [fst snd] in *.
  all: by rewrite Hexit, (ext_original _ _ _ Hext), Hheap.
Qed.

(** C6. The trace callback in place before a session is in place again
    after it, on every exit path.  [__enter__] saves the slot in the
    collector and installs the collector's callback; [__exit__] first
    puts the saved callback back, whatever it then returns or raises;
    so a whole [with collector:] or [with debugger:] statement, for any
    block and any way of leaving it, ends with the slot it started from. *)
Theorem trace_slot_restored :
  (∀ c w,
     trace_slot (CoverageCollector.__enter__ c w) = Some (TraceOf c)
     ∧ original_trace_function (heap (CoverageCollector.__enter__ c w) c)
       = trace_slot w)
  ∧ (∀ c exc w,
       trace_slot (CoverageCollector.__exit__ c exc w).2
       = original_trace_function (heap w c))
  ∧ (∀ c b w, trace_slot (with_collector c b w).2 = trace_slot w)
  ∧ (∀ d b w, trace_slot (with_debugger d b w).2 = trace_slot w).
Proof.
  split; [|split; [|split]].
  - intros c w. split; [done|]. by rewrite enter_heap.
  - apply exit_slot.
  - apply with_collector_slot.
  - apply with_debugger_slot.
Qed.

(** ** Filing a collector *)

Lemma dict_get_app_None {V} k k' (v : V) d :
  dict_get k d = None →
  dict_get k' (d ++ [(k, v)]) =
  if String.eqb k' k then Some v else dict_get k' d.
Proof.
  induction d as [|[k0 v0] d IH]; cbn; intros Hk; [done|].
  destruct (String.eqb_spec k k0) as [|Hne]; [done|].
  destruct (String.eqb_spec k' k0) as [E|Hne'].
  - subst k'. destruct (String.eqb_spec k0 k); [congruence|done].
  - by apply IH.
Qed.

Lemma dict_get_dict_append k c d k' :
  dict_get k' (TarantulaDebugger.dict_append k c d) =
  if String.eqb k' k then (λ l, l ++ [c]) <$> dict_get k' d
  else dict_get k' d.
Proof.
  induction d as [|[k0 l0] d IH]; cbn; [by destruct (String.eqb k' k)|].
  destruct (String.eqb_spec k k0) as [E|Hne]; cbn.
  - subst k0. by destruct (String.eqb_spec k' k).
  - destruct (String.eqb_spec k' k0) as [E|Hne'].
    + subst k'. destruct (String.eqb_spec k0 k); [congruence|done].
    + apply IH.
Qed.

Lemma filed_under_add_collector outcome c d o :
  filed_under (TarantulaDebugger.add_collector outcome c d) o =
  if String.eqb o outcome then filed_under d outcome ++ [c]
  else filed_under d o.
Proof.
  unfold filed_under, TarantulaDebugger.add_collector, dict_mem; cbn.
  rewrite dict_get_dict_append.
  destruct (dict_get outcome (collectors d)) as [l|] eqn:Hget.
  - destruct (String.eqb_spec o outcome) as [->|]; [by rewrite Hget|done].
  - rewrite dict_get_app_None by done.
    destruct (String.eqb_spec o outcome) as [->|]; [done|done].
Qed.


(** ** First call of a session *)

Lemma collect_self c frame event w :
  ∃ cache cov,
    heap (CoverageCollector.collect c frame event w).2 c
    = set_coverage cov (set_cache cache (heap w c)).
Proof.
  unfold CoverageCollector.collect.
  destruct (CoverageCollector.search_func _ frame) as [found|]; wsimpl.
  - exists (_generated_function_cache (heap w c)),
      (_coverage (heap w c) ∪ {[(found, f_lineno frame)]}).
    by destruct (heap w c).
  - destruct (create_function_self c frame w) as [cache Hself].
    destruct (CoverageCollector.create_function c frame w) as [[g|e] w1];
      wsimpl; cbn in Hself; rewrite Hself; [eauto|].
    exists cache, (_coverage (heap w c)). done.
Qed.

Lemma collect_function c frame event w :
  _function (heap (CoverageCollector.collect c frame event w).2 c) =
  _function (heap w c).
Proof. by destruct (collect_self c frame event w) as (? & ? & ->). Qed.

Lemma collect_ok c frame event w :
  synthesizable (__class__ (heap w c)) frame = true →
  (CoverageCollector.collect c frame event w).1 = Ok tt.
Proof.
  intros Hs. rewrite resolve_unit_collect. unfold resolve_unit.
  destruct (CoverageCollector.search_func _ frame) as [found|]; [done|].
  by destruct (create_function_ok c frame w Hs) as [g ->].
Qed.

(** While [c] is installed, [deliver] is [_traceit] on the store. *)
Lemma deliver_heap c ev w :
  trace_slot w = Some (TraceOf c) →
  heap (deliver ev w)
  = heap (CoverageCollector._traceit c (ev_frame ev) (ev_kind ev) w).2.
Proof.
  intros Hs. by destruct (deliver_cases c ev w Hs) as [(_ & -> & _)|(_ & -> & _)].
Qed.

Lemma deliver_ignored c ev w :
  trace_slot w = Some (TraceOf c) →
  qualifies (items_to_ignore (heap w c)) ev = false →
  deliver ev w = w.
Proof.
  intros Hs Hq. unfold deliver. rewrite Hs.
  unfold qualifies in Hq. unfold CoverageCollector._traceit.
  destruct (CoverageCollector.our_frame (ev_frame ev)); [done|]. cbn in Hq.
  apply negb_false_iff in Hq. unfold CoverageCollector.traceit.
  by rewrite Hq.
Qed.

(** An event that is not a qualifying call leaves the record of the
    first call as it is, and so does every event once a first call is
    recorded. *)
Lemma deliver_no_call c ev w :
  trace_slot w = Some (TraceOf c) →
  qualifies (items_to_ignore (heap w c)) ev
    && bool_decide (ev_kind ev = Call) = false →
  first_call (heap (deliver ev w) c) = first_call (heap w c).
Proof.
  intros Hs Hq. rewrite (deliver_heap c) by done.
  unfold CoverageCollector._traceit, qualifies in *.
  destruct (CoverageCollector.our_frame (ev_frame ev)); [done|].
  unfold CoverageCollector.traceit.
  destruct (existsb _ _); [done|]. cbn in Hq.
  apply bool_decide_eq_false in Hq.
  destruct (collect_self c (ev_frame ev) (ev_kind ev) w)
    as (cache & cov & Hself).
  destruct (_function (heap w c)) eqn:Hf; [by rewrite Hself|].
  destruct (ev_kind ev); try done; by rewrite Hself.
Qed.

Lemma deliver_first_call_kept c ev w :
  trace_slot w = Some (TraceOf c) →
  is_Some (_function (heap w c)) →
  first_call (heap (deliver ev w) c) = first_call (heap w c).
Proof.
  intros Hs [f Hf]. rewrite (deliver_heap c) by done.
  unfold CoverageCollector._traceit, CoverageCollector.traceit.
  destruct (CoverageCollector.our_frame _); [done|].
  destruct (existsb _ _); [done|]. rewrite Hf.
  destruct (collect_self c (ev_frame ev) (ev_kind ev) w)
    as (cache & cov & ->). done.
Qed.

(** The first qualifying call: if the unit cannot be made nothing is
    recorded; else the unit and the locals are, and their rendering
    unless [repr] raises. *)
Lemma deliver_first_call c ev w :
  trace_slot w = Some (TraceOf c) →
  _function (heap w c) = None →
  qualifies (items_to_ignore (heap w c)) ev = true →
  ev_kind ev = Call →
  match (CoverageCollector.create_function c (ev_frame ev) w).1 with
  | Raise e => deliver ev w = settrace None w
  | Ok unit =>
      match CoverageCollector.argstring_of (repr w) (f_locals (ev_frame ev))
      with
      | Ok s =>
          trace_slot (deliver ev w) = Some (TraceOf c)
          ∧ first_call (heap (deliver ev w) c)
            = (Some unit, Some (f_locals (ev_frame ev)), Some s)
      | Raise e =>
          trace_slot (deliver ev w) = None
          ∧ first_call (heap (deliver ev w) c)
            = (Some unit, Some (f_locals (ev_frame ev)),
               _argstring (heap w c))
      end
  end.
Proof.
  intros Hs Hnone Hq Hcall.
  unfold qualifies in Hq. apply andb_true_iff in Hq as [Hour Hign].
  apply negb_true_iff in Hour, Hign.
  pose proof (create_function_self c (ev_frame ev) w) as [cache Hself].
  pose proof (create_function_caches c (ev_frame ev) w) as Hcached.
  pose proof (create_function_slot c (ev_frame ev) w) as Hslot.
  pose proof (ext_repr _ _ _ (create_function_extends c (ev_frame ev) w))
    as Hrepr.
  unfold deliver. rewrite Hs.
  unfold CoverageCollector._traceit, CoverageCollector.traceit.
  rewrite Hour, Hign, Hnone, Hcall.
  destruct (CoverageCollector.create_function c (ev_frame ev) w)
    as [[g|e] w1] eqn:Hcf; cbn [fst snd] in *.
  - wsimpl. rewrite Hrepr.
    destruct (CoverageCollector.argstring_of _ _) as [s|e].
    + set (w3 := upd c (set_argstring s) _).
      assert ((CoverageCollector.collect c (ev_frame ev) Call w3).1 = Ok tt)
        as Hok.
      { rewrite resolve_unit_collect. unfold resolve_unit.
        destruct (CoverageCollector.search_func _ _); [done|].
        erewrite create_function_cached; [done|].
        subst w3. wsimpl. by apply Hcached. }
      pose proof (collect_slot c (ev_frame ev) Call w3) as Hs3.
      destruct (collect_self c (ev_frame ev) Call w3) as (ca & co & Hself3).
      destruct (CoverageCollector.collect c (ev_frame ev) Call w3)
        as [[[]|e] w4]; [|done]. cbn [fst snd] in *.
      split; [by rewrite Hs3, <- Hs, <- Hslot|].
      rewrite Hself3. subst w3. wsimpl. rewrite Hself. done.
    + cbn. split; [done|]. wsimpl. rewrite Hself. done.
  - destruct (create_function_raise c (ev_frame ev) w e) as (Heq & _);
      [by rewrite Hcf|].
    rewrite Hcf in Heq. by injection Heq as _ ->.
Qed.

Lemma run_events_first_call_kept c evs w :
  trace_slot w = Some (TraceOf c) ∨ trace_slot w = None →
  is_Some (_function (heap w c)) →
  first_call (heap (run_events evs w) c) = first_call (heap w c).
Proof.
  revert w. induction evs as [|ev evs IH]; intros w Hs Hf; [done|].
  destruct Hs as [Hs|Hoff]; [|by rewrite run_events_off].
  rewrite run_events_cons.
  pose proof (deliver_extends c ev w Hs) as Hd.
  pose proof (deliver_first_call_kept c ev w Hs Hf) as Hk.
  rewrite IH; [done| |].
  - destruct (ext_slot _ _ _ Hd) as [E|E]; [left; congruence|by right].
  - by rewrite (ext_function _ _ _ Hd Hf).
Qed.

Lemma run_events_no_call c evs w :
  trace_slot w = Some (TraceOf c) →
  no_call (items_to_ignore (heap w c)) evs →
  first_call (heap (run_events evs w) c) = first_call (heap w c).
Proof.
  revert w. induction evs as [|ev evs IH]; intros w Hs Hno; [done|].
  unfold no_call in Hno. cbn in Hno.
  apply orb_false_iff in Hno as [Hev Hno]. rewrite run_events_cons.
  pose proof (deliver_extends c ev w Hs) as Hd.
  pose proof (deliver_no_call c ev w Hs Hev) as Hk.
  destruct (deliver_cases c ev w Hs) as [(_ & _ & Hs')|(_ & _ & Hoff)].
  - rewrite IH; [done|done|].
    unfold no_call. by rewrite (ext_items _ _ _ Hd).
  - by rewrite run_events_off.
Qed.

(** A block whose events up to the first qualifying call all have units
    that can be made records its first call. *)
Lemma run_events_records_call c evs w :
  trace_slot w = Some (TraceOf c) →
  _function (heap w c) = None →
  records_call (__class__ (heap w c)) (items_to_ignore (heap w c)) evs = true →
  is_Some (_function (heap (run_events evs w) c)).
Proof.
  revert w. induction evs as [|ev evs IH]; intros w Hs Hnone Hrec; [done|].
  rewrite run_events_cons. cbn in Hrec.
  destruct (qualifies _ ev) eqn:Hq.
  - apply andb_true_iff in Hrec as [Hsyn Hrec].
    destruct (bool_decide (ev_kind ev = Call)) eqn:Hcall.
    + apply bool_decide_eq_true in Hcall.
      pose proof (deliver_first_call c ev w Hs Hnone Hq Hcall) as Hfirst.
      pose proof (deliver_extends c ev w Hs) as Hd.
      destruct (create_function_ok c (ev_frame ev) w Hsyn) as [g Hg].
      rewrite Hg in Hfirst.
      assert (_function (heap (deliver ev w) c) = Some g) as Hf.
      { destruct (CoverageCollector.argstring_of _ _);
          destruct Hfirst as [_ Hfirst]; by injection Hfirst. }
      pose proof (run_events_first_call_kept c evs (deliver ev w)) as Hk.
      assert (first_call (heap (run_events evs (deliver ev w)) c)
              = first_call (heap (deliver ev w) c)) as Hkept.
      { apply Hk; [|by rewrite Hf].
        destruct (ext_slot _ _ _ Hd) as [E|E]; [left; congruence|by right]. }
      injection Hkept as -> _ _. by rewrite Hf.
    + cbn in Hrec.
      assert (qualifies (items_to_ignore (heap w c)) ev
              && bool_decide (ev_kind ev = Call) = false) as Hno
        by (by rewrite Hcall, andb_false_r).
      pose proof (deliver_no_call c ev w Hs Hno) as Hk.
      pose proof (deliver_extends c ev w Hs) as Hd.
      assert (trace_slot (deliver ev w) = Some (TraceOf c)) as Hs'.
      { destruct (deliver_cases c ev w Hs) as [(_ & _ & ?)|([e He] & _ & _)];
          [done|]. exfalso. revert He.
        unfold qualifies in Hq. apply andb_true_iff in Hq as [Hour Hign].
        apply negb_true_iff in Hour, Hign.
        apply bool_decide_eq_false in Hcall.
        unfold CoverageCollector._traceit, CoverageCollector.traceit.
        rewrite Hour, Hign, Hnone.
        destruct (ev_kind ev); try done; by rewrite collect_ok. }
      apply IH; [done| |].
      * injection Hk as -> _ _. done.
      * by rewrite (ext_class _ _ _ Hd), (ext_items _ _ _ Hd).
  - rewrite (deliver_ignored c) by done. by apply IH.
Qed.

(** With [unknown] defined, a block records its first call as soon as
    it has a qualifying call. *)
Lemma records_call_with_unknown items evs :
  records_call TarantulaDebugger_py items evs
  = existsb (λ ev, qualifies items ev && bool_decide (ev_kind ev = Call)) evs.
Proof.
  induction evs as [|ev evs IH]; [done|]. cbn. rewrite IH.
  destruct (qualifies items ev); [|done].
  unfold synthesizable. by destruct (co_freevars _).
Qed.

Lemma session_function d b w :
  (observes_call session_items b = false →
   _function (heap (before_exit d b w) (next_ref w)) = None)
  ∧ (records_call (collector_class d) session_items (blk_events b) = true →
     is_Some (_function (heap (before_exit d b w) (next_ref w)))).
Proof.
  destruct (debugger_enter d w) as (_ & Hslot & Hheap & _).
  unfold before_exit. split.
  - intros Hno.
    pose proof (run_events_no_call _ (blk_events b) _ Hslot) as Hrun.
    rewrite Hheap in Hrun. specialize (Hrun Hno).
    unfold first_call in Hrun. by injection Hrun as Hrun _ _.
  - intros Hrec. apply run_events_records_call; [done| |];
      by rewrite Hheap.
Qed.

(** The four ways a session ends. *)
Lemma with_debugger_cases d b w :
  let c := next_ref w in
  let r := with_debugger d b w in
  r.2 = (CoverageCollector.__exit__ c (blk_exc b) (before_exit d b w)).2
  ∧ match _function (heap (before_exit d b w) c), blk_exc b with
    | None, None =>
        r.1.1 = Raises (ValueError "No call collected")
        ∧ r.1.2 = entered d w
    | None, Some e =>
        r.1.1 = Propagates e ∧ r.1.2 = entered d w
    | Some _, None =>
        r.1.1 = Normal
        ∧ r.1.2 = TarantulaDebugger.add_collector
                    TarantulaDebugger.PASS c (entered d w)
    | Some _, Some e =>
        if CoverageCollector.is_internal_error (Some e)
        then r.1.1 = Propagates e ∧ r.1.2 = entered d w
        else r.1.1 = Normal
             ∧ r.1.2 = TarantulaDebugger.add_collector
                         TarantulaDebugger.FAIL c (entered d w)
    end.
Proof.
  intros c r. subst c r. unfold with_debugger.
  destruct (debugger_enter d w) as (Henter & _). rewrite Henter.
  fold (before_exit d b w).
  unfold TarantulaDebugger.__exit__. cbn [collector entered].
  unfold CoverageCollector.__exit__, settrace. cbn [heap].
  destruct (_function (heap (before_exit d b w) (next_ref w))) as [f|].
  - destruct (blk_exc b) as [e|]; cbn; [|done].
    destruct (existsb CoverageCollector.our_frame (exc_traceback e)); done.
  - by destruct (blk_exc b) as [e|].
Qed.

Lemma with_collector_no_call c b w :
  _function (heap w c) = None →
  observes_call (items_to_ignore (heap w c)) b = false →
  (with_collector c b w).1 =
  match blk_exc b with
  | None => Raises (ValueError "No call collected")
  | Some e => Propagates e
  end.
Proof.
  intros Hnone Hno. unfold with_collector.
  pose proof (run_events_no_call c (blk_events b) _ (enter_slot c w)) as Hrun.
  rewrite enter_heap in Hrun. specialize (Hrun Hno).
  unfold first_call in Hrun. injection Hrun as Hrun _ _.
  cbn in Hrun. rewrite Hnone in Hrun.
  unfold CoverageCollector.__exit__, settrace. cbn [heap]. rewrite Hrun.
  by destruct (blk_exc b).
Qed.

(** C5. A session that observes no qualifying call files nothing.  For
    [with debugger:], the debugger's [collectors] are what they were, and
    the statement ends with [ValueError("No call collected")] if the
    block returned normally, with the block's exception re-raised if it
    raised.  A collector run on its own ([with collector:], which never
    files) ends the same way. *)
Theorem no_call_no_outcome :
  (∀ (d : Debugger) (b : Block) (w : World),
     observes_call session_items b = false →
     collectors (with_debugger d b w).1.2 = collectors d
     ∧ (with_debugger d b w).1.1 =
       match blk_exc b with
       | None => Raises (ValueError "No call collected")
       | Some e => Propagates e
       end)
  ∧ (∀ (c : nat) (b : Block) (w : World),
       _function (heap w c) = None →
       observes_call (items_to_ignore (heap w c)) b = false →
       (with_collector c b w).1 =
       match blk_exc b with
       | None => Raises (ValueError "No call collected")
       | Some e => Propagates e
       end).
Proof.
  split; [|apply with_collector_no_call].
  intros d b w Hno. pose proof (proj1 (session_function d b w) Hno) as Hf.
  destruct (with_debugger_cases d b w) as [_ Hcases]. rewrite Hf in Hcases.
  destruct (blk_exc b) as [e|]; destruct Hcases as [-> ->]; done.
Qed.

Lemma no_call_no_outcome_witness :
  (observes_call session_items Sample.block_empty = false
   ∧ collectors
       (with_debugger Sample.debugger0 Sample.block_empty
                      Sample.world0).1.2 = []
   ∧ (with_debugger Sample.debugger0 Sample.block_empty
                    Sample.world0).1.1
     = Raises (ValueError "No call collected"))
  ∧ (_function (heap Sample.world0 10) = None
     ∧ observes_call (items_to_ignore (heap Sample.world0 10))
                     Sample.block_raise_only = false
     ∧ (with_collector 10 Sample.block_raise_only Sample.world0).1
       = Propagates (mkExc "RuntimeError" [])).
Proof.
  split.
  - split; [reflexivity|].
    exact (proj1 no_call_no_outcome Sample.debugger0
             Sample.block_empty Sample.world0 eq_refl).
  - split; [reflexivity|]. split; [reflexivity|].
    exact (proj2 no_call_no_outcome 10%nat Sample.block_raise_only
             Sample.world0 eq_refl eq_refl).
Defined.

(** C2 (as the code has it). A block whose exception passed through a
    frame of the collector is re-raised and nothing is filed.  Otherwise,
    provided the session recorded its first call (the block has a
    qualifying call, and the unit of every qualifying event up to and
    including the first such call can be made): a block that raises
    nothing ends the [with] statement normally with the session's
    collector appended under PASS; a block that raises ends it normally,
    the exception swallowed, with the collector appended under FAIL.
    For a collector class that defines [unknown] the proviso is that the
    block has a qualifying call. *)
Theorem session_outcome (d : Debugger) (b : Block) (w : World) :
  let c := next_ref w in
  let r := with_debugger d b w in
  let recorded :=
    records_call (collector_class d) session_items (blk_events b) in
  match blk_exc b with
  | None =>
      recorded = true →
      r.1.1 = Normal
      ∧ filed_under r.1.2 TarantulaDebugger.PASS
        = filed_under d TarantulaDebugger.PASS ++ [c]
      ∧ filed_under r.1.2 TarantulaDebugger.FAIL
        = filed_under d TarantulaDebugger.FAIL
  | Some e =>
      if CoverageCollector.is_internal_error (Some e)
      then r.1.1 = Propagates e ∧ collectors r.1.2 = collectors d
      else
        recorded = true →
        r.1.1 = Normal
        ∧ filed_under r.1.2 TarantulaDebugger.FAIL
          = filed_under d TarantulaDebugger.FAIL ++ [c]
        ∧ filed_under r.1.2 TarantulaDebugger.PASS
          = filed_under d TarantulaDebugger.PASS
  end
  ∧ (collector_class d = TarantulaDebugger_py →
     recorded = observes_call session_items b).
Proof.
  intros c r recorded. subst c r recorded.
  split; [|intros ->; apply records_call_with_unknown].
  pose proof (proj2 (session_function d b w)) as Hf.
  destruct (with_debugger_cases d b w) as [_ Hcases].
  destruct (blk_exc b) as [e|].
  - destruct (CoverageCollector.is_internal_error (Some e)) eqn:Hint.
    + destruct (_function _) as [f|]; [|by destruct Hcases as [-> ->]].
      by destruct Hcases as [-> ->].
    + intros Hobs. destruct (Hf Hobs) as [f Hf'].
      rewrite Hf' in Hcases. destruct Hcases as [-> ->].
      rewrite !filed_under_add_collector. done.
  - intros Hobs. destruct (Hf Hobs) as [f Hf'].
    rewrite Hf' in Hcases. destruct Hcases as [-> ->].
    rewrite !filed_under_add_collector. done.
Qed.

Lemma session_outcome_witness :
  (records_call CoverageCollector_py session_items
                (blk_events Sample.block_f) = true
   ∧ (with_debugger Sample.debugger0 Sample.block_f
                    Sample.world0).1.1 = Normal
   ∧ filed_under (with_debugger Sample.debugger0 Sample.block_f
                                Sample.world0).1.2 TarantulaDebugger.PASS
     = [10%nat])
  ∧ (records_call CoverageCollector_py session_items
                  (blk_events Sample.block_g_raises) = true
     ∧ (with_debugger Sample.debugger0 Sample.block_g_raises
                      Sample.world0).1.1 = Normal
     ∧ filed_under (with_debugger Sample.debugger0
                      Sample.block_g_raises Sample.world0).1.2
                   TarantulaDebugger.FAIL
       = [10%nat])
  ∧ (CoverageCollector.is_internal_error (blk_exc Sample.block_internal)
     = true
     ∧ collectors (with_debugger Sample.debugger0
                     Sample.block_internal Sample.world0).1.2 = []).
Proof.
  split; [|split].
  - split; [reflexivity|].
    destruct (proj1 (session_outcome Sample.debugger0 Sample.block_f
                       Sample.world0) eq_refl) as (H1 & H2 & _).
    split; [exact H1 | exact H2].
  - split; [reflexivity|].
    destruct (proj1 (session_outcome Sample.debugger0
                       Sample.block_g_raises Sample.world0) eq_refl)
      as (H1 & H2 & _).
    split; [exact H1 | exact H2].
  - split; [reflexivity|].
    exact (proj2 (proj1 (session_outcome Sample.debugger0
                           Sample.block_internal Sample.world0))).
Defined.

(** C2 (as stated) fails: a block that raises nothing but calls nothing
    is not filed under PASS; the session ends with [ValueError]. *)
Lemma no_fault_not_always_pass :
  ¬ (∀ (d : Debugger) (b : Block) (w : World),
       blk_exc b = None →
       (with_debugger d b w).1.1 = Normal
       ∧ next_ref w ∈ filed_under (with_debugger d b w).1.2
                                  TarantulaDebugger.PASS).
Proof.
  intros H.
  destruct (H Sample.debugger0 Sample.block_empty Sample.world0
              eq_refl) as [Hk _].
  vm_compute in Hk. discriminate Hk.
Qed.


(** ** Collectors without a first call *)

Lemma dict_mem_app_same {V} k (v : V) d : dict_mem k (d ++ [(k, v)]) = true.
Proof.
  unfold dict_mem. induction d as [|[k0 v0] d IH]; cbn.
  - by rewrite String.eqb_refl.
  - by destruct (String.eqb k k0).
Qed.

Lemma filed_dict_append k c d :
  dict_mem k d = true →
  concat (map snd (TarantulaDebugger.dict_append k c d))
  ≡ₚ c :: concat (map snd d).
Proof.
  unfold dict_mem. induction d as [|[k0 l0] d IH]; cbn; [done|].
  destruct (String.eqb k k0); cbn; intros Hm.
  - rewrite <- app_assoc. cbn. by rewrite Permutation_middle.
  - rewrite IH by done. by rewrite Permutation_middle.
Qed.

Lemma filed_add_collector outcome c d :
  filed (TarantulaDebugger.add_collector outcome c d) ≡ₚ c :: filed d.
Proof.
  unfold filed, TarantulaDebugger.add_collector; cbn.
  destruct (dict_mem outcome (collectors d)) eqn:Hm.
  - by apply filed_dict_append.
  - rewrite filed_dict_append by apply dict_mem_app_same.
    by rewrite map_app, concat_app, app_nil_r.
Qed.

Lemma function_loop_raises w cs names_seen functions c :
  c ∈ cs →
  _function (heap w c) = None →
  TarantulaDebugger.function_loop w cs names_seen functions
  = Raise (ValueError "No call collected").
Proof.
  revert names_seen functions.
  induction cs as [|c0 cs IH]; intros names_seen functions Hin Hnone.
  - by apply elem_of_nil in Hin.
  - cbn. unfold CoverageCollector.function.
    destruct (_function (heap w c0)) as [f|] eqn:Hf; [|done]. cbn.
    apply elem_of_cons in Hin as [->|Hin]; [congruence|].
    case_decide; by apply IH.
Qed.

Lemma collect_spec outcome d w :
  let c := next_ref w in
  TarantulaDebugger.collect outcome d w
  = (c, TarantulaDebugger.add_collector outcome c d,
     (TarantulaDebugger.collect outcome d w).2)
  ∧ heap (TarantulaDebugger.collect outcome d w).2 c
    = set_items session_items
        (CoverageCollector.__init__ (collector_class d))
  ∧ next_ref (TarantulaDebugger.collect outcome d w).2 = S (next_ref w)
  ∧ trace_slot (TarantulaDebugger.collect outcome d w).2 = trace_slot w
  ∧ (∀ c', c' ≠ c →
       heap (TarantulaDebugger.collect outcome d w).2 c' = heap w c').
Proof.
  unfold TarantulaDebugger.collect, alloc,
    CoverageCollector.add_items_to_ignore.
  repeat split; wsimpl; try done. intros c' Hc'. by wsimpl.
Qed.

(** C10. A collector whose first call was never recorded raises
    [ValueError("No call collected")] from [function()], [args()] and
    [argstring()].  A debugger that holds such a collector raises the
    same error from its own [function()]; the collector that
    [collect(outcome)] files is one, as long as it has not been run. *)
Theorem no_call_collected_raises :
  (∀ c : Collector,
     _function c = None → _args c = None → _argstring c = None →
     CoverageCollector.function c = Raise (ValueError "No call collected")
     ∧ CoverageCollector.args c = Raise (ValueError "No call collected")
     ∧ CoverageCollector.argstring c
       = Raise (ValueError "No call collected"))
  ∧ (∀ (d : Debugger) (w : World) (c : nat),
       c ∈ filed d → _function (heap w c) = None →
       TarantulaDebugger.function d w
       = Raise (ValueError "No call collected"))
  ∧ (∀ (outcome : string) (d : Debugger) (w : World),
       let r := TarantulaDebugger.collect outcome d w in
       r.1.1 ∈ filed_under r.1.2 outcome
       ∧ _function (heap r.2 r.1.1) = None
       ∧ _args (heap r.2 r.1.1) = None
       ∧ _argstring (heap r.2 r.1.1) = None
       ∧ TarantulaDebugger.function r.1.2 r.2
         = Raise (ValueError "No call collected")).
Proof.
  split; [|split].
  - intros c Hf Ha Hs.
    unfold CoverageCollector.function, CoverageCollector.args,
      CoverageCollector.argstring. by rewrite Hf, Ha, Hs.
  - intros d w c Hin Hnone. unfold TarantulaDebugger.function.
    by rewrite (function_loop_raises w _ _ _ c Hin Hnone).
  - intros outcome d w r. subst r.
    destruct (collect_spec outcome d w) as (Heq & Hheap & _).
    rewrite Heq. cbn [fst snd]. rewrite Hheap.
    split; [|repeat split; try done].
    + rewrite filed_under_add_collector, String.eqb_refl.
      apply elem_of_app. right. by apply list_elem_of_singleton.
    + unfold TarantulaDebugger.function.
      rewrite (function_loop_raises _ _ _ _ (next_ref w)); [done| |].
      * fold (filed (TarantulaDebugger.add_collector outcome (next_ref w) d)).
        rewrite filed_add_collector. apply elem_of_cons. by left.
      * by rewrite Hheap.
Qed.

Lemma no_call_collected_raises_witness :
  let r := TarantulaDebugger.collect_pass Sample.debugger0
             Sample.world0 in
  (_function (heap r.2 10) = None ∧ _args (heap r.2 10) = None
   ∧ _argstring (heap r.2 10) = None)
  ∧ (CoverageCollector.function (heap r.2 10)
     = Raise (ValueError "No call collected")
     ∧ CoverageCollector.args (heap r.2 10)
       = Raise (ValueError "No call collected")
     ∧ CoverageCollector.argstring (heap r.2 10)
       = Raise (ValueError "No call collected"))
  ∧ (10%nat ∈ filed r.1.2
     ∧ TarantulaDebugger.function r.1.2 r.2
       = Raise (ValueError "No call collected")).
Proof.
  intros r. split; [by repeat split|]. split.
  - apply (proj1 no_call_collected_raises (heap r.2 10)); reflexivity.
  - split; [vm_compute; apply list_elem_of_here|].
    apply (proj1 (proj2 no_call_collected_raises) r.1.2 r.2 10%nat).
    + vm_compute. apply list_elem_of_here.
    + reflexivity.
Defined.

(** ** Invariants of reachable states *)

Lemma dict_get_None_keys {V} k (d : list (string * V)) :
  dict_get k d = None ↔ k ∉ map fst d.
Proof.
  induction d as [|[k0 v0] d IH]; cbn.
  - split; [intros _; apply not_elem_of_nil | done].
  - rewrite not_elem_of_cons.
    destruct (String.eqb_spec k k0) as [E|Hne]; [|by rewrite IH; tauto].
    split; [done|]. by intros [? _].
Qed.

Lemma dict_get_elem_of {V} k (v : V) d : dict_get k d = Some v → (k, v) ∈ d.
Proof.
  induction d as [|[k0 v0] d IH]; cbn; [done|].
  destruct (String.eqb_spec k k0) as [E|Hne].
  - intros [= ->]. subst. apply list_elem_of_here.
  - intros Hget. apply list_elem_of_further. by apply IH.
Qed.

Lemma elem_of_dict_get {V} k (v : V) d :
  NoDup (map fst d) → (k, v) ∈ d → dict_get k d = Some v.
Proof.
  induction d as [|[k0 v0] d IH]; cbn; intros Hnd Hin.
  - by apply elem_of_nil in Hin.
  - apply NoDup_cons in Hnd as [Hk0 Hnd].
    apply elem_of_cons in Hin as [[= -> ->]|Hin].
    + by rewrite String.eqb_refl.
    + destruct (String.eqb_spec k k0) as [E|Hne]; [|by apply IH].
      subst k0. exfalso. apply Hk0. apply list_elem_of_fmap.
      by exists (k, v).
Qed.

Lemma dict_append_keys k c d :
  map fst (TarantulaDebugger.dict_append k c d) = map fst d.
Proof.
  induction d as [|[k0 l0] d IH]; cbn; [done|].
  destruct (String.eqb k k0); cbn; [done|]. by rewrite IH.
Qed.

Lemma dict_append_nonempty k c d :
  Forall (λ kv : string * list nat, kv.2 ≠ []) d →
  Forall (λ kv : string * list nat, kv.2 ≠ [])
         (TarantulaDebugger.dict_append k c d).
Proof.
  induction d as [|[k0 l0] d IH]; cbn; intros Hall; [done|].
  apply Forall_cons in Hall as [H0 Hall].
  destruct (String.eqb k k0); apply Forall_cons; split; cbn; auto.
  by destruct l0.
Qed.

Lemma dict_append_fresh k c d :
  dict_get k d = None →
  TarantulaDebugger.dict_append k c (d ++ [(k, [])]) = d ++ [(k, [c])].
Proof.
  induction d as [|[k0 l0] d IH]; cbn; intros Hget.
  - by rewrite String.eqb_refl.
  - destruct (String.eqb k k0); [done|]. by rewrite IH.
Qed.

Lemma add_collector_collectors_wf outcome c d :
  Forall (λ kv, kv.2 ≠ []) (collectors d) →
  NoDup (map fst (collectors d)) →
  Forall (λ kv, kv.2 ≠ [])
         (collectors (TarantulaDebugger.add_collector outcome c d))
  ∧ NoDup (map fst (collectors (TarantulaDebugger.add_collector outcome c d))).
Proof.
  intros Hne Hkeys. unfold TarantulaDebugger.add_collector, dict_mem; cbn.
  destruct (dict_get outcome (collectors d)) as [l|] eqn:Hget.
  - split; [by apply dict_append_nonempty | by rewrite dict_append_keys].
  - rewrite dict_append_fresh by done. split.
    + apply Forall_app. split; [done|]. by apply Forall_singleton.
    + rewrite map_app. cbn. apply NoDup_app. split; [done|]. split.
      * intros k Hk Hk'. apply list_elem_of_singleton in Hk'. subst k.
        by apply dict_get_None_keys in Hget.
      * apply NoDup_singleton.
Qed.

Lemma wf_add_collector outcome c d w w' :
  wf d w → c = next_ref w → (next_ref w < next_ref w')%nat →
  wf (TarantulaDebugger.add_collector outcome c d) w'.
Proof.
  intros [Hne Hkeys Hnd Halloc] -> Hlt.
  destruct (add_collector_collectors_wf outcome (next_ref w) d Hne Hkeys)
    as [Hne' Hkeys'].
  split; try done.
  - rewrite filed_add_collector. apply NoDup_cons. split; [|done].
    intros Hin. rewrite Forall_forall in Halloc.
    specialize (Halloc _ Hin). lia.
  - rewrite filed_add_collector. apply Forall_cons. split; [done|].
    eapply Forall_impl; [exact Halloc|]. cbn. intros; lia.
Qed.

Lemma wf_next_ref d w w' :
  wf d w → (next_ref w ≤ next_ref w')%nat → wf d w'.
Proof.
  intros [Hne Hkeys Hnd Halloc] Hle. split; try done.
  eapply Forall_impl; [exact Halloc|]. cbn. intros; lia.
Qed.

Lemma wf_entered d w w' :
  wf d w → (next_ref w ≤ next_ref w')%nat → wf (entered d w) w'.
Proof.
  intros Hwf Hle. destruct (wf_next_ref d w w' Hwf Hle). by split.
Qed.

Lemma before_exit_spec d b w :
  extends (next_ref w) (TarantulaDebugger.__enter__ d w).2 (before_exit d b w)
  ∧ next_ref (TarantulaDebugger.__enter__ d w).2 = S (next_ref w).
Proof.
  destruct (debugger_enter d w) as (_ & Hslot & _ & Hnext & _).
  split; [|done]. by apply run_events_extends.
Qed.

Lemma with_debugger_next_ref d b w :
  (next_ref w < next_ref (with_debugger d b w).2)%nat.
Proof.
  destruct (with_debugger_cases d b w) as [Hw _]. rewrite Hw.
  rewrite exit_next_ref.
  destruct (before_exit_spec d b w) as [Hext Hnext].
  pose proof (ext_next _ _ _ Hext). lia.
Qed.

Lemma with_debugger_wf d b w :
  wf d w → wf (with_debugger d b w).1.2 (with_debugger d b w).2.
Proof.
  intros Hwf. pose proof (with_debugger_next_ref d b w) as Hlt.
  destruct (with_debugger_cases d b w) as [_ Hcases].
  assert (wf (entered d w) (with_debugger d b w).2) as Hent
    by (apply wf_entered; [done|lia]).
  assert (∀ o, wf (TarantulaDebugger.add_collector o (next_ref w)
                     (entered d w)) (with_debugger d b w).2) as Hadd.
  { intros o. apply (wf_add_collector o _ (entered d w) w);
      [by apply wf_entered | done | done]. }
  destruct (_function _), (blk_exc b) as [e|].
  - destruct (CoverageCollector.is_internal_error _);
      destruct Hcases as [_ ->]; done.
  - destruct Hcases as [_ ->]; done.
  - destruct Hcases as [_ ->]; done.
  - destruct Hcases as [_ ->]; done.
Qed.

Lemma with_collector_next_ref c b w :
  (next_ref w ≤ next_ref (with_collector c b w).2)%nat.
Proof.
  unfold with_collector.
  pose proof (run_events_extends c (blk_events b) _ (enter_slot c w)) as Hext.
  pose proof (exit_next_ref c (blk_exc b)
                (run_events (blk_events b) (CoverageCollector.__enter__ c w)))
    as Hexit.
  destruct (CoverageCollector.__exit__ _ _ _) as [res w3]. cbn [fst snd] in *.
  rewrite Hexit. by pose proof (ext_next _ _ _ Hext).
Qed.

Lemma reachable_wf d w : reachable d w → wf d w.
Proof.
  induction 1 as [w | d w b k d' w' _ IH Heq | d w o c d' w' _ IH Heq
                  | d w c b k w' _ IH Heq].
  - split; cbn; try done; apply NoDup_nil_2.
  - pose proof (with_debugger_wf d b w IH) as Hwf. by rewrite Heq in Hwf.
  - destruct (collect_spec o d w) as (Hc & _ & Hnext & _).
    rewrite Heq in Hc, Hnext. injection Hc as -> ->. cbn in Hnext.
    apply (wf_add_collector o _ d w); [done|done|lia].
  - pose proof (with_collector_next_ref c b w) as Hle. rewrite Heq in Hle.
    by apply (wf_next_ref d w).
Qed.

Lemma session_reachable_reachable d w : session_reachable d w → reachable d w.
Proof. induction 1; [apply r_init | by eapply r_session]. Qed.

(** ** Fractions *)

Lemma inject_nat_pos (b : nat) :
  (0 < b)%nat → (0 < inject_Z (Z.of_nat b))%Q.
Proof. intros Hb. unfold Qlt; cbn. lia. Qed.

Lemma Qfrac_bounds (a b : nat) :
  (a ≤ b)%nat → (0 < b)%nat →
  (0 <= inject_Z (Z.of_nat a) / inject_Z (Z.of_nat b)
   ∧ inject_Z (Z.of_nat a) / inject_Z (Z.of_nat b) <= 1)%Q.
Proof.
  intros Hab Hb. pose proof (inject_nat_pos b Hb) as Hpos. split.
  - apply Qle_shift_div_l; [done|]. rewrite Qmult_0_l.
    unfold Qle; cbn. lia.
  - apply Qle_shift_div_r; [done|]. rewrite Qmult_1_l.
    rewrite <- Zle_Qle. lia.
Qed.

Lemma Qfrac_pos (a b : nat) :
  (0 < b)%nat →
  (0 < inject_Z (Z.of_nat a) / inject_Z (Z.of_nat b))%Q ↔ (0 < a)%nat.
Proof.
  intros Hb. pose proof (inject_nat_pos b Hb) as Hpos. split.
  - intros Hlt. destruct a; [|lia]. exfalso.
    revert Hlt. cbn. unfold Qdiv. rewrite Qmult_0_l. apply Qlt_irrefl.
  - intros Ha. apply Qlt_shift_div_l; [done|]. rewrite Qmult_0_l.
    by apply inject_nat_pos.
Qed.

Lemma NoDup_concat_elem {A} (ls : list (list A)) (l : list A) :
  NoDup (concat ls) → l ∈ ls → NoDup l.
Proof.
  induction ls as [|l0 ls IH]; cbn; intros Hnd Hin.
  - by apply elem_of_nil in Hin.
  - apply NoDup_app in Hnd as (Hl0 & _ & Hls).
    apply elem_of_cons in Hin as [->|Hin]; [done|]. by apply IH.
Qed.

Lemma wf_filed_under d w o :
  wf d w →
  (dict_get o (collectors d) = None ∧ filed_under d o = [])
  ∨ (dict_get o (collectors d) = Some (filed_under d o)
     ∧ filed_under d o ≠ [] ∧ NoDup (filed_under d o)).
Proof.
  intros [Hne Hkeys Hnd _]. unfold filed_under.
  destruct (dict_get o (collectors d)) as [cs|] eqn:Hget; [right|by left].
  apply dict_get_elem_of in Hget. cbn. split; [done|]. split.
  - rewrite Forall_forall in Hne. apply (Hne _ Hget).
  - apply (NoDup_concat_elem (map snd (collectors d))); [done|].
    apply list_elem_of_fmap. by exists (o, cs).
Qed.

(** The value of [event_fraction] in a well-formed state. *)
Lemma event_fraction_wf d w e o :
  wf d w →
  TarantulaDebugger.event_fraction d e o w =
  match filed_under d o with
  | [] => Ok 0%Q
  | _ :: _ =>
      Ok (inject_Z (Z.of_nat (length (runs_with_event d w e o)))
          / inject_Z (Z.of_nat (length (filed_under d o))))%Q
  end.
Proof.
  intros Hwf. unfold TarantulaDebugger.event_fraction,
    TarantulaDebugger.collectors_with_event.
  destruct (wf_filed_under d w o Hwf) as [[Hget Hnil]|(Hget & Hne & Hnd)].
  - by rewrite Hget, Hnil.
  - rewrite Hget. cbn. fold (runs_with_event d w e o).
    rewrite size_list_to_set by (by apply NoDup_filter).
    destruct (filed_under d o); done.
Qed.

Lemma runs_with_event_le d w e o :
  (length (runs_with_event d w e o) ≤ length (filed_under d o))%nat.
Proof. apply length_filter. Qed.

Lemma runs_with_event_pos d w e o :
  (0 < length (runs_with_event d w e o))%nat ↔ observed_under d w e o.
Proof.
  unfold runs_with_event, observed_under. split.
  - intros Hlen.
    destruct (filter _ _) as [|c l] eqn:Hf; [cbn in Hlen; lia|].
    assert (c ∈ filter (λ c, e ∈ CoverageCollector.events (heap w c))
                       (filed_under d o)) as Hin
      by (rewrite Hf; apply list_elem_of_here).
    apply list_elem_of_filter in Hin as [? ?]. eauto.
  - intros (c & Hin & He).
    assert (c ∈ filter (λ c, e ∈ CoverageCollector.events (heap w c))
                       (filed_under d o)) as Hin'
      by (by apply list_elem_of_filter).
    destruct (filter _ _); [by apply elem_of_nil in Hin'|cbn; lia].
Qed.

(** All about one fraction, for use below. *)
Lemma event_fraction_facts d w e o :
  wf d w →
  ∃ q, TarantulaDebugger.event_fraction d e o w = Ok q
       ∧ (0 <= q)%Q ∧ (q <= 1)%Q
       ∧ ((0 < q)%Q ↔ observed_under d w e o)
       ∧ (filed_under d o = [] → q = 0%Q)
       ∧ (filed_under d o ≠ [] →
          q = (inject_Z (Z.of_nat (length (runs_with_event d w e o)))
               / inject_Z (Z.of_nat (length (filed_under d o))))%Q).
Proof.
  intros Hwf. rewrite (event_fraction_wf d w e o Hwf).
  pose proof (runs_with_event_le d w e o) as Hle.
  pose proof (runs_with_event_pos d w e o) as Hpos.
  destruct (filed_under d o) as [|c cs] eqn:Hfiled.
  - exists 0%Q. split; [done|]. split; [apply Qle_refl|].
    split; [by unfold Qle|]. split; [|done]. split.
    + intros Hlt. by apply Qlt_irrefl in Hlt.
    + intros Hobs. apply Hpos in Hobs. cbn in Hle. lia.
  - eexists. split; [done|].
    assert (0 < length (c :: cs))%nat as Hb by (cbn; lia).
    destruct (Qfrac_bounds _ _ Hle Hb) as [H0 H1].
    split; [done|]. split; [done|]. split; [|done]. split.
    + intros Hlt. apply Hpos. by apply (Qfrac_pos _ _ Hb).
    + intros Hobs. apply (Qfrac_pos _ _ Hb). by apply Hpos.
Qed.

Lemma triple_eta {A B C} (x : A * B * C) : x = (x.1.1, x.1.2, x.2).
Proof. by destruct x as [[? ?] ?]. Qed.

Lemma session_step d w b :
  session_reachable d w →
  session_reachable (with_debugger d b w).1.2 (with_debugger d b w).2.
Proof. intros Hr. eapply sr_session; [exact Hr | apply triple_eta]. Qed.

Lemma sample_after_f_reachable :
  session_reachable SampleRuns.after_f.1.2 SampleRuns.after_f.2.
Proof. unfold SampleRuns.after_f. apply session_step, sr_init. Qed.

Lemma sample_after_fg_reachable :
  session_reachable SampleRuns.after_fg.1.2 SampleRuns.after_fg.2.
Proof.
  unfold SampleRuns.after_fg. apply session_step, sample_after_f_reachable.
Qed.




(** ** Suspiciousness *)

Lemma Qlt_bool_iff (x y : Q) : Qlt_bool x y = true ↔ (x < y)%Q.
Proof.
  unfold Qlt_bool. rewrite negb_true_iff.
  destruct (Qle_bool y x) eqn:Hle.
  - apply Qle_bool_iff in Hle. split; [done|]. intros Hlt.
    exfalso. by apply (Qlt_not_le x y).
  - split; [|done]. intros _. apply Qnot_le_lt. intros Hle'.
    apply Qle_bool_iff in Hle'. congruence.
Qed.


(** The value of [suspiciousness] from the two fractions. *)
Lemma suspiciousness_value d w e p f :
  TarantulaDebugger.event_fraction d e TarantulaDebugger.PASS w = Ok p →
  TarantulaDebugger.event_fraction d e TarantulaDebugger.FAIL w = Ok f →
  TarantulaDebugger.suspiciousness d e w =
  Ok (if Qlt_bool 0 (p + f) then Some (1 - p / (p + f))%Q else None).
Proof.
  intros Hp Hf. unfold TarantulaDebugger.suspiciousness, TarantulaDebugger.hue,
    TarantulaDebugger.passed_fraction, TarantulaDebugger.failed_fraction.
  rewrite Hp, Hf. cbn. by destruct (Qlt_bool 0 (p + f)).
Qed.



(** ** Sorting by descending key *)

Section sorting.
Context {A : Type}.
Implicit Types (x : Q * A) (l : list (Q * A)).




End sorting.



(** ** States reached by sessions *)

Lemma add_collector_keys (P : string → Prop) o c d :
  Forall P (map fst (collectors d)) → P o →
  Forall P (map fst (collectors (TarantulaDebugger.add_collector o c d))).
Proof.
  intros Hall Ho. unfold TarantulaDebugger.add_collector; cbn.
  rewrite dict_append_keys.
  destruct (dict_mem o (collectors d)); [done|].
  rewrite map_app. apply Forall_app. split; [done|]. by apply Forall_singleton.
Qed.

Lemma with_debugger_heap_other d b w c :
  c ≠ next_ref w → heap (with_debugger d b w).2 c = heap w c.
Proof.
  intros Hc. destruct (with_debugger_cases d b w) as [Hw _]. rewrite Hw.
  rewrite exit_heap.
  destruct (before_exit_spec d b w) as [Hext _].
  rewrite (ext_other _ _ _ Hext) by done.
  destruct (debugger_enter d w) as (_ & _ & _ & _ & Hother). by apply Hother.
Qed.

Lemma with_debugger_session_inv d b w :
  wf d w → session_inv d w →
  session_inv (with_debugger d b w).1.2 (with_debugger d b w).2.
Proof.
  intros Hwf [Hkeys Hcalled].
  assert (Forall (λ c, is_Some (_function (heap (with_debugger d b w).2 c)))
                 (filed d)) as Hold.
  { rewrite Forall_forall in Hcalled |- *. intros c Hin.
    rewrite with_debugger_heap_other; [by apply Hcalled|].
    pose proof (wf_alloc _ _ Hwf) as Halloc. rewrite Forall_forall in Halloc.
    specialize (Halloc c Hin). lia. }
  assert (session_inv (entered d w) (with_debugger d b w).2) as Hent
    by (by split).
  assert (∀ o, o = TarantulaDebugger.PASS ∨ o = TarantulaDebugger.FAIL →
               is_Some (_function (heap (before_exit d b w) (next_ref w))) →
               session_inv (TarantulaDebugger.add_collector o (next_ref w)
                              (entered d w)) (with_debugger d b w).2) as Hadd.
  { intros o Ho Hsome. split.
    - by apply add_collector_keys.
    - rewrite filed_add_collector. apply Forall_cons. split; [|done].
      destruct (with_debugger_cases d b w) as [Hw _]. rewrite Hw.
      by rewrite exit_heap. }
  destruct (with_debugger_cases d b w) as [_ Hcases].
  destruct (_function _) as [f|] eqn:Hf, (blk_exc b) as [e|].
  - destruct (CoverageCollector.is_internal_error _);
      destruct Hcases as [_ ->]; [done|]. apply Hadd; eauto.
  - destruct Hcases as [_ ->]. apply Hadd; eauto.
  - destruct Hcases as [_ ->]; done.
  - destruct Hcases as [_ ->]; done.
Qed.

Lemma session_reachable_inv d w :
  session_reachable d w → wf d w ∧ session_inv d w.
Proof.
  intros Hr. split; [by apply reachable_wf, session_reachable_reachable|].
  induction Hr as [w | d w b k d' w' Hr IH Heq].
  - split; cbn; done.
  - pose proof (with_debugger_session_inv d b w
                  (reachable_wf _ _ (session_reachable_reachable _ _ Hr)) IH)
      as Hinv.
    by rewrite Heq in Hinv.
Qed.

(** ** Events of a debugger *)

Lemma elem_of_events_of w cs e :
  e ∈ TarantulaDebugger.events_of w cs ↔
  ∃ c, c ∈ cs ∧ e ∈ CoverageCollector.events (heap w c).
Proof.
  unfold TarantulaDebugger.events_of. rewrite elem_of_union_list. split.
  - intros (X & HX & He). apply list_elem_of_fmap in HX as (c & -> & Hc).
    eauto.
  - intros (c & Hc & He). eexists. split; [|exact He].
    apply list_elem_of_fmap. eauto.
Qed.

Lemma elem_of_all_events d w e :
  e ∈ TarantulaDebugger.all_events d None w ↔
  ∃ k cs c, (k, cs) ∈ collectors d ∧ c ∈ cs
            ∧ e ∈ CoverageCollector.events (heap w c).
Proof.
  cbn. rewrite elem_of_union_list. split.
  - intros (X & HX & He).
    apply list_elem_of_fmap in HX as ([k cs] & -> & Hkv).
    apply elem_of_events_of in He as (c & Hc & He). eauto 6.
  - intros (k & cs & c & Hkv & Hc & He).
    exists (TarantulaDebugger.events_of w cs). split.
    + apply list_elem_of_fmap. by exists (k, cs).
    + apply elem_of_events_of. eauto.
Qed.







(** ** The entry function *)

Lemma function_loop_ok w cs names_seen functions fs :
  Forall2 (λ c f, _function (heap w c) = Some f) cs fs →
  TarantulaDebugger.function_loop w cs names_seen functions
  = Ok (functions ++ first_by_name names_seen fs).
Proof.
  intros Hall. revert names_seen functions.
  induction Hall as [|c f cs fs Hf _ IH]; intros names_seen functions; cbn.
  - by rewrite app_nil_r.
  - unfold CoverageCollector.function. rewrite Hf. cbn.
    case_decide; [done|]. by rewrite IH, <- app_assoc.
Qed.

Lemma first_calls_exist w cs :
  Forall (λ c, is_Some (_function (heap w c))) cs →
  ∃ fs, Forall2 (λ c f, _function (heap w c) = Some f) cs fs.
Proof.
  induction 1 as [|c cs [f Hf] _ [fs Hfs]].
  - by exists [].
  - exists (f :: fs). by constructor.
Qed.

Lemma first_by_name_all_seen names_seen fs :
  Forall (λ f, __name__ f ∈ names_seen) fs →
  first_by_name names_seen fs = [].
Proof.
  induction 1 as [|f fs Hf _ IH]; cbn; [done|]. by rewrite decide_True.
Qed.

Lemma first_by_name_unseen names_seen fs f :
  f ∈ fs → __name__ f ∉ names_seen → first_by_name names_seen fs ≠ [].
Proof.
  revert names_seen. induction fs as [|f0 fs IH]; intros names_seen Hin Hnot.
  - by apply elem_of_nil in Hin.
  - cbn. case_decide as Hseen; [|done].
    apply elem_of_cons in Hin as [->|Hin]; [done|]. by apply IH.
Qed.

Lemma Forall2_elem_of_l {A B} (R : A → B → Prop) l k a :
  Forall2 R l k → a ∈ l → ∃ b, b ∈ k ∧ R a b.
Proof.
  induction 1 as [|a0 b0 l k HR _ IH]; intros Hin.
  - by apply elem_of_nil in Hin.
  - apply elem_of_cons in Hin as [->|Hin].
    + exists b0. split; [apply list_elem_of_here|done].
    + destruct (IH Hin) as (b & Hb & HRb). exists b.
      split; [by apply list_elem_of_further|done].
Qed.

Lemma Forall2_elem_of_r {A B} (R : A → B → Prop) l k b :
  Forall2 R l k → b ∈ k → ∃ a, a ∈ l ∧ R a b.
Proof.
  induction 1 as [|a0 b0 l k HR _ IH]; intros Hin.
  - by apply elem_of_nil in Hin.
  - apply elem_of_cons in Hin as [->|Hin].
    + exists a0. split; [apply list_elem_of_here|done].
    + destruct (IH Hin) as (a & Ha & HRa). exists a.
      split; [by apply list_elem_of_further|done].
Qed.

Lemma function_two_names d w :
  Forall (λ c, is_Some (_function (heap w c))) (filed d) →
  two_names_observed d w →
  TarantulaDebugger.function d w = Ok None.
Proof.
  intros Hcalled (c1 & c2 & f1 & f2 & Hc1 & Hc2 & Hf1 & Hf2 & Hne).
  destruct (first_calls_exist w _ Hcalled) as [fs Hfs].
  unfold TarantulaDebugger.function. fold (filed d).
  rewrite (function_loop_ok w _ ∅ [] fs Hfs). cbn.
  destruct (Forall2_elem_of_l _ _ _ c1 Hfs Hc1) as (g1 & Hg1 & Hg1').
  destruct (Forall2_elem_of_l _ _ _ c2 Hfs Hc2) as (g2 & Hg2 & Hg2').
  assert (g1 = f1) as -> by congruence.
  assert (g2 = f2) as -> by congruence.
  destruct fs as [|f0 fs]; [by apply elem_of_nil in Hg1|].
  cbn. rewrite decide_False by apply not_elem_of_empty.
  assert (∃ f, f ∈ fs ∧ __name__ f ≠ __name__ f0) as (f & Hf & Hname).
  { destruct (decide (__name__ f1 = __name__ f0)) as [Heq|Hneq].
    - exists f2. split; [|congruence].
      apply elem_of_cons in Hg2 as [->|]; [congruence|done].
    - exists f1. split; [|done].
      apply elem_of_cons in Hg1 as [->|]; [congruence|done]. }
  pose proof (first_by_name_unseen ({[__name__ f0]} ∪ ∅) fs f Hf) as Hnonnil.
  destruct (first_by_name _ fs); [|done].
  exfalso. apply Hnonnil; [|done].
  rewrite elem_of_union, elem_of_singleton, elem_of_empty. tauto.
Qed.

Lemma function_one_name d w c0 cs f0 :
  Forall (λ c, is_Some (_function (heap w c))) (filed d) →
  filed d = c0 :: cs →
  _function (heap w c0) = Some f0 →
  (∀ c f, c ∈ filed d → _function (heap w c) = Some f →
          __name__ f = __name__ f0) →
  TarantulaDebugger.function d w = Ok (Some f0).
Proof.
  intros Hcalled Hfiled Hf0 Hsame.
  destruct (first_calls_exist w _ Hcalled) as [fs Hfs].
  unfold TarantulaDebugger.function. fold (filed d).
  rewrite (function_loop_ok w _ ∅ [] fs Hfs). cbn.
  rewrite Hfiled in Hfs.
  apply Forall2_cons_inv_l in Hfs as (g0 & fs' & Hg0 & Hfs' & ->).
  assert (g0 = f0) as -> by congruence.
  cbn. rewrite decide_False by apply not_elem_of_empty.
  rewrite first_by_name_all_seen; [done|].
  apply Forall_forall. intros f Hf.
  destruct (Forall2_elem_of_r _ _ _ f Hfs' Hf) as (c & Hc & Hcf).
  rewrite (Hsame c f); [| |done].
  - apply elem_of_union_l. by apply elem_of_singleton.
  - rewrite Hfiled. by apply list_elem_of_further.
Qed.

(** C8 (as the code has it). In a state where every filed collector has
    recorded its first call (every state reached by completed sessions
    is one), [function()] returns without raising: [None] when the
    first-call units of two filed collectors differ in name, and the
    first filed collector's unit when all first-call units share its
    name.  In particular it returns [None] after sessions that recorded
    differently named units. *)
Theorem function_spec (d : Debugger) (w : World) :
  Forall (λ c, is_Some (_function (heap w c))) (filed d) →
  (two_names_observed d w → TarantulaDebugger.function d w = Ok None)
  ∧ (∀ c0 cs f0,
       filed d = c0 :: cs →
       _function (heap w c0) = Some f0 →
       (∀ c f, c ∈ filed d → _function (heap w c) = Some f →
               __name__ f = __name__ f0) →
       TarantulaDebugger.function d w = Ok (Some f0)).
Proof.
  intros Hcalled. split.
  - by apply function_two_names.
  - intros c0 cs f0. by apply function_one_name.
Qed.

(** After completed sessions the hypothesis of [function_spec] holds. *)
Corollary function_after_sessions d w :
  session_reachable d w → two_names_observed d w →
  TarantulaDebugger.function d w = Ok None.
Proof.
  intros Hr. destruct (session_reachable_inv d w Hr) as [_ [_ Hcalled]].
  by apply function_two_names.
Qed.

Lemma sample_filed_after_fg : filed SampleRuns.after_fg.1.2 = [10; 12]%nat.
Proof. vm_compute. reflexivity. Qed.

Lemma sample_two_names :
  two_names_observed SampleRuns.after_fg.1.2 SampleRuns.after_fg.2.
Proof.
  exists 10%nat, 12%nat, (Fn 11 "f"), (Fn 13 "g").
  rewrite sample_filed_after_fg.
  split; [apply list_elem_of_here|].
  split; [apply list_elem_of_further, list_elem_of_here|].
  split; [vm_compute; reflexivity|]. split; [vm_compute; reflexivity|].
  discriminate.
Qed.

Lemma function_spec_witness :
  Forall (λ c, is_Some (_function (heap SampleRuns.after_fg.2 c)))
         (filed SampleRuns.after_fg.1.2)
  ∧ two_names_observed SampleRuns.after_fg.1.2 SampleRuns.after_fg.2
  ∧ TarantulaDebugger.function SampleRuns.after_fg.1.2 SampleRuns.after_fg.2
    = Ok None.
Proof.
  assert (Forall (λ c, is_Some (_function (heap SampleRuns.after_fg.2 c)))
                 (filed SampleRuns.after_fg.1.2)) as Hcalled.
  { rewrite sample_filed_after_fg.
    repeat constructor; eexists; vm_compute; reflexivity. }
  split; [exact Hcalled|]. split; [exact sample_two_names|].
  exact (proj1 (function_spec _ _ Hcalled) sample_two_names).
Defined.

Lemma collect_step o d w :
  reachable d w →
  reachable (TarantulaDebugger.collect o d w).1.2
            (TarantulaDebugger.collect o d w).2.
Proof. intros Hr. eapply r_collect; [exact Hr | apply triple_eta]. Qed.

(** C8 (as stated) fails: with sessions on [f] and on [g] filed, and a
    collector from [collect_pass()] that was never run, two names are
    observed, yet [function()] raises instead of returning [None]. *)
Lemma function_raises_with_unrun_collector :
  ¬ (∀ (d : Debugger) (w : World),
       reachable d w → two_names_observed d w →
       TarantulaDebugger.function d w = Ok None).
Proof.
  intros H.
  specialize (H SampleRuns.after_fg_collect.1.2 SampleRuns.after_fg_collect.2).
  assert (TarantulaDebugger.function SampleRuns.after_fg_collect.1.2
            SampleRuns.after_fg_collect.2
          = Raise (ValueError "No call collected")) as Hraise
    by (vm_compute; reflexivity).
  rewrite Hraise in H. enough (Raise (ValueError "No call collected")
                               = @Ok (option Callable) None) by discriminate.
  apply H.
  - unfold SampleRuns.after_fg_collect, TarantulaDebugger.collect_pass.
    apply collect_step, session_reachable_reachable, sample_after_fg_reachable.
  - exists 10%nat, 12%nat, (Fn 11 "f"), (Fn 13 "g").
    assert (filed SampleRuns.after_fg_collect.1.2 = [10; 14; 12]%nat) as ->
      by (vm_compute; reflexivity).
    split; [apply list_elem_of_here|].
    split; [do 2 apply list_elem_of_further; apply list_elem_of_here|].
    split; [vm_compute; reflexivity|]. split; [vm_compute; reflexivity|].
    discriminate.
Qed.

(** ** Scenarios of the specification *)

(** Scenario D: an event in 2 of 4 FAIL runs and 1 of 6 PASS runs has
    suspiciousness 1 - (1/6)/(1/6 + 2/4) = 3/4. *)
Example scenario_D :
  ∃ s, TarantulaDebugger.suspiciousness ScenarioD.debugger ("f", 7)
         ScenarioD.world = Ok (Some s)
       ∧ (s == 3 # 4)%Q.
Proof. eexists. split; [vm_compute; reflexivity|]. reflexivity. Qed.

(** Scenario C: sessions on [f] and on [g]; the entry function is
    ambiguous.  After the session on [f] alone it is the unit of [f]. *)
Example scenario_C :
  TarantulaDebugger.function SampleRuns.after_fg.1.2 SampleRuns.after_fg.2
  = Ok None
  ∧ TarantulaDebugger.function SampleRuns.after_f.1.2 SampleRuns.after_f.2
    = Ok (Some (Fn 11 "f")).
Proof. split; vm_compute; reflexivity. Qed.

(** Scenario A, in small: the lines of [g], run only by the failing
    session, are the events seen in failing runs only, and rank first. *)
Example scenario_A :
  elements (TarantulaDebugger.only_fail_events SampleRuns.after_fg.1.2
                                               SampleRuns.after_fg.2)
  = [("g", 11); ("g", 12)]
  ∧ TarantulaDebugger.rank SampleRuns.after_fg.1.2 SampleRuns.after_fg.2
    = Ok [("g", 11); ("g", 12); ("f", 3); ("f", 1); ("f", 2)].
Proof. split; vm_compute; reflexivity. Qed.

(** * Further properties *)




(** * Further properties *)

(** ** The first call of a collector *)

(** What a collector holds once the block has run, when [ev] is the
    first qualifying call of the block and reaches the collector. *)
Lemma first_call_recorded c w evs1 ev evs2 :
  trace_slot w = Some (TraceOf c) →
  _function (heap w c) = None →
  no_call (items_to_ignore (heap w c)) evs1 →
  qualifies (items_to_ignore (heap w c)) ev = true →
  ev_kind ev = Call →
  trace_slot (run_events evs1 w) = Some (TraceOf c) →
  first_call (heap (run_events (evs1 ++ ev :: evs2) w) c)
  = match (CoverageCollector.create_function c (ev_frame ev)
             (run_events evs1 w)).1 with
    | Ok unit =>
        (Some unit, Some (f_locals (ev_frame ev)),
         match CoverageCollector.argstring_of (repr w)
                 (f_locals (ev_frame ev)) with
         | Ok s => Some s
         | Raise _ => _argstring (heap w c)
         end)
    | Raise _ => first_call (heap w c)
    end.
Proof.
  intros Hs Hnone Hno Hq Hcall Hs1. rewrite run_events_app, run_events_cons.
  pose proof (run_events_extends c evs1 w Hs) as H1.
  pose proof (run_events_no_call c evs1 w Hs Hno) as Hk1.
  assert (_function (heap (run_events evs1 w) c) = None) as Hnone1.
  { unfold first_call in Hk1. injection Hk1 as -> _ _. done. }
  rewrite <- (ext_items _ _ _ H1) in Hq.
  pose proof (deliver_first_call c ev _ Hs1 Hnone1 Hq Hcall) as Hfirst.
  pose proof (deliver_extends c ev _ Hs1) as Hd.
  rewrite (ext_repr _ _ _ H1) in Hfirst.
  destruct (CoverageCollector.create_function c (ev_frame ev) _).1
    as [unit|e].
  - assert (first_call (heap (deliver ev (run_events evs1 w)) c)
            = (Some unit, Some (f_locals (ev_frame ev)),
               match CoverageCollector.argstring_of (repr w)
                       (f_locals (ev_frame ev)) with
               | Ok s => Some s
               | Raise _ => _argstring (heap w c)
               end)) as Hrec.
    { destruct (CoverageCollector.argstring_of _ _);
        destruct Hfirst as [_ ->]; [done|].
      unfold first_call in Hk1. by injection Hk1 as _ _ ->. }
    rewrite run_events_first_call_kept; [done| |].
    + destruct (ext_slot _ _ _ Hd) as [E|E]; [left; congruence|by right].
    + unfold first_call in Hrec. injection Hrec as -> _ _. eauto.
  - rewrite Hfirst, run_events_off by done. exact Hk1.
Qed.

(** X1. The call that identifies a session is the first qualifying
    [call] event that reaches the collector.  If its unit can be made,
    the collector keeps the unit, a copy of the locals and, unless [repr]
    raises, their rendering, and no later event, call or not, replaces
    them.  If the unit cannot be made, nothing is recorded, then or
    later in the block. *)
Theorem first_call_wins (c : nat) (w : World)
    (evs1 : list TraceEvent) (ev : TraceEvent) (evs2 : list TraceEvent) :
  trace_slot w = Some (TraceOf c) →
  _function (heap w c) = None →
  no_call (items_to_ignore (heap w c)) evs1 →
  qualifies (items_to_ignore (heap w c)) ev = true →
  ev_kind ev = Call →
  trace_slot (run_events evs1 w) = Some (TraceOf c) →
  let final := heap (run_events (evs1 ++ ev :: evs2) w) c in
  match (CoverageCollector.create_function c (ev_frame ev)
           (run_events evs1 w)).1 with
  | Ok unit =>
      _function final = Some unit
      ∧ _args final = Some (f_locals (ev_frame ev))
      ∧ match CoverageCollector.argstring_of (repr w)
                (f_locals (ev_frame ev)) with
        | Ok s => _argstring final = Some s
        | Raise _ => _argstring final = _argstring (heap w c)
        end
  | Raise _ =>
      _function final = None
      ∧ _args final = _args (heap w c)
      ∧ _argstring final = _argstring (heap w c)
  end.
Proof.
  intros Hs Hnone Hno Hq Hcall Hs1 final. subst final.
  pose proof (first_call_recorded c w evs1 ev evs2 Hs Hnone Hno Hq Hcall Hs1)
    as Hrec.
  unfold first_call in Hrec.
  destruct (CoverageCollector.create_function c (ev_frame ev) _).1
    as [unit|e].
  - injection Hrec as -> -> Hstr. repeat split.
    by destruct (CoverageCollector.argstring_of _ _).
  - injection Hrec as -> -> ->. by rewrite Hnone.
Qed.

Lemma first_call_wins_witness :
  let w := CoverageCollector.__enter__ 10 SampleMore.world1 in
  let evs1 := [mkEvent (Sample.frame_at Sample.code_f 2 1) Line] in
  let ev := mkEvent (Sample.frame_at Sample.code_g 11 3) Call in
  let evs2 := [mkEvent (Sample.frame_at Sample.code_f 1 1) Call] in
  (trace_slot w = Some (TraceOf 10)
   ∧ _function (heap w 10) = None
   ∧ no_call (items_to_ignore (heap w 10)) evs1
   ∧ qualifies (items_to_ignore (heap w 10)) ev = true
   ∧ ev_kind ev = Call
   ∧ trace_slot (run_events evs1 w) = Some (TraceOf 10))
  ∧ _function (heap (run_events (evs1 ++ ev :: evs2) w) 10)
    = Some (Fn 11 "g")
  ∧ _args (heap (run_events (evs1 ++ ev :: evs2) w) 10)
    = Some [("x", VInt 3)]
  ∧ _argstring (heap (run_events (evs1 ++ ev :: evs2) w) 10) = Some "x=3".
Proof.
  intros w evs1 ev evs2. split; [by repeat split|].
  exact (first_call_wins 10 w evs1 ev evs2
           eq_refl eq_refl eq_refl eq_refl eq_refl eq_refl).
Defined.

(** ** Queries after the first call *)

Lemma append_nonempty (s t : string) : t ≠ "" → s +:+ t ≠ "".
Proof. intros Ht. destruct s; [done|]. discriminate. Qed.

Lemma concat_nonempty (sep s : string) (l : list string) :
  s ≠ "" → String.concat sep (s :: l) ≠ "".
Proof.
  intros Hs. cbn. destruct l; [done|].
  destruct s; [done|]. discriminate.
Qed.

(** The rendering of the arguments is empty exactly when there are
    none. *)
Lemma argstring_of_empty repr args s :
  CoverageCollector.argstring_of repr args = Ok s →
  s = "" ↔ args = [].
Proof.
  unfold CoverageCollector.argstring_of.
  destruct args as [|kv args]; cbn; [intros [= <-]; done|].
  destruct (repr kv.2) as [r|e]; cbn; [|done].
  destruct (rmap_list _ args) as [parts|e]; cbn; [|done].
  intros [= <-]. split; [|done]. intros E. exfalso. revert E.
  fold (String.concat ", " ((kv.1 +:+ "=" +:+ r) :: parts)).
  apply concat_nonempty, append_nonempty. discriminate.
Qed.

(** X2. After a first call whose unit was made and whose locals were
    rendered, [function()] returns the recorded unit.  If the frame had
    no local variables, [args()], [argstring()] and [id()] raise "No call
    collected": an empty dictionary and an empty string count as not
    collected.  With at least one local they return the snapshot, its
    rendering, and [name(rendering)]. *)
Theorem queries_after_first_call (c : nat) (w : World)
    (evs1 : list TraceEvent) (ev : TraceEvent) (evs2 : list TraceEvent)
    (unit : Callable) (s : string) :
  trace_slot w = Some (TraceOf c) →
  _function (heap w c) = None →
  no_call (items_to_ignore (heap w c)) evs1 →
  qualifies (items_to_ignore (heap w c)) ev = true →
  ev_kind ev = Call →
  trace_slot (run_events evs1 w) = Some (TraceOf c) →
  let final := heap (run_events (evs1 ++ ev :: evs2) w) c in
  let locals := f_locals (ev_frame ev) in
  (CoverageCollector.create_function c (ev_frame ev) (run_events evs1 w)).1
  = Ok unit →
  CoverageCollector.argstring_of (repr w) locals = Ok s →
  CoverageCollector.function final = Ok unit
  ∧ (locals = [] →
     CoverageCollector.args final = Raise (ValueError "No call collected")
     ∧ CoverageCollector.argstring final
       = Raise (ValueError "No call collected")
     ∧ CollectorMore.id final = Raise (ValueError "No call collected"))
  ∧ (locals ≠ [] →
     CoverageCollector.args final = Ok locals
     ∧ CoverageCollector.argstring final = Ok s
     ∧ CollectorMore.id final = Ok (__name__ unit +:+ "(" +:+ s +:+ ")")).
Proof.
  intros Hs Hnone Hno Hq Hcall Hs1 final locals Hunit Hstr.
  subst final locals.
  pose proof (first_call_recorded c w evs1 ev evs2 Hs Hnone Hno Hq Hcall Hs1)
    as Hrec.
  rewrite Hunit, Hstr in Hrec.
  unfold first_call in Hrec. injection Hrec as Hf Ha Hs'.
  pose proof (argstring_of_empty _ _ _ Hstr) as Hempty.
  unfold CollectorMore.id, CoverageCollector.function,
    CoverageCollector.args, CoverageCollector.argstring.
  rewrite Hf, Ha, Hs'. split; [done|]. split.
  - intros E. rewrite E. rewrite (proj2 Hempty E). by cbn.
  - intros Hne. destruct (f_locals (ev_frame ev)) as [|kv args]; [done|].
    destruct (String.eqb_spec s "") as [E|_];
      [by apply Hempty in E|].
    cbn. by destruct (String.eqb_spec s "").
Qed.

Lemma queries_after_first_call_witness :
  let w := CoverageCollector.__enter__ 10 SampleMore.world1 in
  let ev := mkEvent (mkFrame Sample.code_f 1 Sample.module_globals [] None)
                    Call in
  (trace_slot w = Some (TraceOf 10)
   ∧ _function (heap w 10) = None
   ∧ no_call (items_to_ignore (heap w 10)) []
   ∧ qualifies (items_to_ignore (heap w 10)) ev = true
   ∧ ev_kind ev = Call
   ∧ trace_slot (run_events [] w) = Some (TraceOf 10)
   ∧ (CoverageCollector.create_function 10 (ev_frame ev) (run_events [] w)).1
     = Ok (Fn 11 "f")
   ∧ CoverageCollector.argstring_of (repr w) (f_locals (ev_frame ev)) = Ok "")
  ∧ CoverageCollector.function (heap (run_events ([] ++ ev :: []) w) 10)
    = Ok (Fn 11 "f")
  ∧ CoverageCollector.args (heap (run_events ([] ++ ev :: []) w) 10)
    = Raise (ValueError "No call collected").
Proof.
  intros w ev. split; [by repeat split|].
  destruct (queries_after_first_call 10 w [] ev [] (Fn 11 "f") ""
              eq_refl eq_refl eq_refl eq_refl eq_refl eq_refl eq_refl eq_refl)
    as (Hf & Hempty & _).
  split; [exact Hf|]. exact (proj1 (Hempty eq_refl)).
Defined.

(** ** Looking a function up by name *)

Lemma search_frame_unfold name frame :
  CoverageCollector.search_frame name frame =
  match CoverageCollector.callable_item (binding name frame) with
  | Some func => Some (frame, func)
  | None =>
      match f_back frame with
      | Some back => CoverageCollector.search_frame name back
      | None => None
      end
  end.
Proof.
  destruct frame as [code line globals locals back]. cbn.
  unfold binding, dict_mem; cbn.
  destruct (dict_get name locals), (dict_get name globals); done.
Qed.

Lemma search_frame_chain name :
  ∀ frame,
    CoverageCollector.search_frame name frame =
    head (omap (λ fr, (λ func, (fr, func))
                      <$> CoverageCollector.callable_item (binding name fr))
               (chain frame)).
Proof.
  fix IH 1. intros frame. rewrite search_frame_unfold.
  destruct frame as [code line globals locals back]. cbn [chain f_back].
  cbn [omap list_omap].
  destruct (CoverageCollector.callable_item _) as [func|]; cbn; [done|].
  destruct back as [back|]; [apply IH|done].
Qed.

(** X3. [search_frame] returns the nearest frame, going from the given
    frame out through its callers, in which the name denotes a truthy
    callable, together with that callable.  In each frame a local
    binding hides the global one, also when the local value is not
    callable: such a frame is passed over, whatever its globals hold. *)
Theorem search_frame_nearest (name : string) (frame : Frame) :
  CoverageCollector.search_frame name frame =
  head (omap (λ fr, (λ func, (fr, func))
                    <$> CoverageCollector.callable_item (binding name fr))
             (chain frame))
  ∧ (∀ v, dict_get name (f_locals frame) = Some v →
          CoverageCollector.callable_item (Some v) = None →
          CoverageCollector.search_func name frame =
          match f_back frame with
          | Some back => CoverageCollector.search_func name back
          | None => None
          end)
  ∧ (∀ func, dict_get name (f_locals frame) = Some (VFun func) →
             CoverageCollector.search_func name frame = Some func).
Proof.
  split; [apply search_frame_chain|]. split.
  - intros v Hv Hnc. unfold CoverageCollector.search_func.
    rewrite search_frame_unfold. unfold binding. rewrite Hv, Hnc.
    by destruct (f_back frame).
  - intros func Hv. unfold CoverageCollector.search_func.
    rewrite search_frame_unfold. unfold binding. by rewrite Hv.
Qed.

Lemma search_frame_nearest_witness :
  dict_get "helper" (f_locals SampleMore.caller) = Some (VInt 0)
  ∧ CoverageCollector.callable_item (Some (VInt 0)) = None
  ∧ CoverageCollector.search_func "helper" SampleMore.callee = None.
Proof.
  split; [reflexivity|]. split; [reflexivity|].
  unfold CoverageCollector.search_func.
  rewrite (proj1 (search_frame_nearest "helper" SampleMore.callee)).
  reflexivity.
Defined.


(** ** Where coverage comes from *)

Lemma traceit_coverage c frame event w :
  existsb (λ item, CoverageCollector.ignores item frame)
          (items_to_ignore (heap w c)) = false →
  (CoverageCollector.traceit c frame event w).1 = Ok tt →
  ∃ unit, resolve_unit c frame w = Ok unit
          ∧ _coverage (heap (CoverageCollector.traceit c frame event w).2 c)
            = _coverage (heap w c) ∪ {[ (unit, f_lineno frame) ]}.
Proof.
  intros Hq. unfold CoverageCollector.traceit. rewrite Hq.
  assert (∀ w0,
    (CoverageCollector.collect c frame event w0).1 = Ok tt →
    ∃ unit, resolve_unit c frame w0 = Ok unit
            ∧ _coverage (heap (CoverageCollector.collect c frame event w0).2 c)
              = _coverage (heap w0 c) ∪ {[ (unit, f_lineno frame) ]})
    as Hcollect.
  { intros w0 Hok. rewrite resolve_unit_collect in Hok.
    rewrite collect_coverage.
    destruct (resolve_unit c frame w0) as [u|e]; [eauto|done]. }
  destruct (_function (heap w c)) as [f|] eqn:Hf; [apply Hcollect|].
  destruct event; try apply Hcollect.
  pose proof (create_function_caches c frame w) as Hc.
  destruct (create_function_self c frame w) as [cache Hself].
  destruct (CoverageCollector.create_function c frame w) as [[g|e] w1] eqn:Hcf;
    [|done].
  specialize (Hc g eq_refl). cbn [fst snd] in Hc, Hself.
  destruct (CoverageCollector.argstring_of _ _) as [s|e]; [|done].
  intros Hok. destruct (Hcollect _ Hok) as (u & Hu & Hcov).
  exists u. split.
  - unfold resolve_unit in *.
    destruct (CoverageCollector.search_func _ frame) as [found|]; [done|].
    rewrite Hcf. cbn [fst].
    erewrite create_function_cached in Hu; [done|]. by wsimpl.
  - rewrite Hcov. wsimpl. by rewrite Hself.
Qed.

(** One event leaves the coverage as it is, or adds the location of a
    qualifying event whose unit resolved. *)
Lemma deliver_coverage c ev w :
  trace_slot w = Some (TraceOf c) →
  _coverage (heap (deliver ev w) c) = _coverage (heap w c)
  ∨ (qualifies (items_to_ignore (heap w c)) ev = true
     ∧ ∃ unit,
         resolve_unit c (ev_frame ev) w = Ok unit
         ∧ _coverage (heap (deliver ev w) c)
           = _coverage (heap w c) ∪ {[ (unit, f_lineno (ev_frame ev)) ]}).
Proof.
  intros Hs.
  destruct (qualifies (items_to_ignore (heap w c)) ev) eqn:Hq;
    [|left; by rewrite (deliver_ignored c)].
  rewrite (deliver_heap c) by done.
  unfold qualifies in Hq. apply andb_true_iff in Hq as [Hour Hign].
  apply negb_true_iff in Hour, Hign.
  unfold CoverageCollector._traceit. rewrite Hour.
  destruct (CoverageCollector.traceit c (ev_frame ev) (ev_kind ev) w).1
    as [[]|e] eqn:Hres.
  - right. split; [done|]. by apply traceit_coverage.
  - left. by eapply traceit_raise_coverage.
Qed.

(** X4. A collector records nothing that was not executed: every
    location in its coverage after a block was in it before, or is the
    unit and line of a qualifying event of the block.  With the claim on
    growth this says what the coverage is, exactly. *)
Theorem coverage_sound (c : nat) (w : World) (evs : list TraceEvent)
    (u : Callable) (l : Z) :
  trace_slot w = Some (TraceOf c) →
  (u, l) ∈ CoverageCollector.coverage (heap (run_events evs w) c) →
  (u, l) ∈ CoverageCollector.coverage (heap w c)
  ∨ ∃ evs1 ev evs2,
      evs = evs1 ++ ev :: evs2
      ∧ qualifies (items_to_ignore (heap w c)) ev = true
      ∧ resolve_unit c (ev_frame ev) (run_events evs1 w) = Ok u
      ∧ l = f_lineno (ev_frame ev).
Proof.
  unfold CoverageCollector.coverage.
  revert w. induction evs as [|ev0 evs IH]; intros w Hs Hin; [by left|].
  rewrite run_events_cons in Hin.
  pose proof (deliver_extends c ev0 w Hs) as Hd.
  assert ((u, l) ∈ _coverage (heap (deliver ev0 w) c)
          ∨ ∃ evs1 ev evs2,
              evs = evs1 ++ ev :: evs2
              ∧ qualifies (items_to_ignore (heap (deliver ev0 w) c)) ev = true
              ∧ resolve_unit c (ev_frame ev) (run_events evs1 (deliver ev0 w))
                = Ok u
              ∧ l = f_lineno (ev_frame ev)) as Hcases.
  { destruct (deliver_cases c ev0 w Hs) as [(_ & _ & Hs')|(_ & _ & Hoff)].
    - by apply IH.
    - left. by rewrite run_events_off in Hin. }
  destruct Hcases as [Hold|(evs1 & ev & evs2 & -> & Hq & Hu & ->)].
  - destruct (deliver_coverage c ev0 w Hs) as [E|(Hq0 & u0 & Hu0 & E)];
      rewrite E in Hold; [by left|].
    apply elem_of_union in Hold as [Hold|Hnew]; [by left|].
    apply elem_of_singleton in Hnew. injection Hnew as -> ->.
    right. by exists [], ev0, evs.
  - right. exists (ev0 :: evs1), ev, evs2. split; [done|].
    split; [by rewrite <- (ext_items _ _ _ Hd)|]. done.
Qed.

Lemma coverage_sound_witness :
  let w := CoverageCollector.__enter__ 10 SampleMore.world1 in
  let evs := blk_events Sample.block_f in
  trace_slot w = Some (TraceOf 10)
  ∧ (Fn 1 "f", 3) ∈ CoverageCollector.coverage (heap (run_events evs w) 10)
  ∧ ((Fn 1 "f", 3) ∈ CoverageCollector.coverage (heap w 10)
     ∨ ∃ evs1 ev evs2,
         evs = evs1 ++ ev :: evs2
         ∧ qualifies (items_to_ignore (heap w 10)) ev = true
         ∧ resolve_unit 10 (ev_frame ev) (run_events evs1 w) = Ok (Fn 1 "f")
         ∧ 3 = f_lineno (ev_frame ev)).
Proof.
  intros w evs.
  assert ((Fn 1 "f", 3)
          ∈ CoverageCollector.coverage (heap (run_events evs w) 10)) as Hin.
  { by_compute. }
  split; [reflexivity|]. split; [exact Hin|].
  exact (coverage_sound 10 w evs (Fn 1 "f") 3 eq_refl Hin).
Defined.

(** ** Events seen in failing runs only, or in passing runs only *)

Lemma elem_of_all_events_under d w e o :
  o ≠ "" →
  e ∈ TarantulaDebugger.all_events d (Some o) w ↔ observed_under d w e o.
Proof.
  intros Ho. destruct o as [|a o]; [done|]. cbn.
  unfold observed_under, filed_under.
  destruct (dict_get (String a o) (collectors d)) as [cs|]; cbn.
  - apply elem_of_events_of.
  - split; [by intros ?%elem_of_empty|].
    by intros (c & ?%elem_of_nil & _).
Qed.

Lemma Qdiv_eq_0 (p x : Q) : (0 < x)%Q → (p / x == 0)%Q ↔ (p == 0)%Q.
Proof.
  intros Hx. assert (¬ (x == 0)%Q) as Hne by lra. split; intros H.
  - rewrite <- (Qmult_div_r p x Hne), H. ring.
  - rewrite H. unfold Qdiv. ring.
Qed.

Lemma Qdiv_eq_1 (p x : Q) : (0 < x)%Q → (p / x == 1)%Q ↔ (p == x)%Q.
Proof.
  intros Hx. assert (¬ (x == 0)%Q) as Hne by lra. split; intros H.
  - rewrite <- (Qmult_div_r p x Hne), H. ring.
  - rewrite H. unfold Qdiv. by apply Qmult_inv_r.
Qed.

(** X5. In every reachable state the events of [only_fail_events()] are
    exactly the events of suspiciousness 1, the events of
    [only_pass_events()] exactly those of suspiciousness 0, and no event
    is in both sets. *)
Theorem only_fail_events_most_suspicious (d : Debugger) (w : World)
    (e : Event) :
  reachable d w →
  (e ∈ TarantulaDebugger.only_fail_events d w ↔
   ∃ s, TarantulaDebugger.suspiciousness d e w = Ok (Some s) ∧ (s == 1)%Q)
  ∧ (e ∈ TarantulaDebugger.only_pass_events d w ↔
     ∃ s, TarantulaDebugger.suspiciousness d e w = Ok (Some s) ∧ (s == 0)%Q)
  ∧ ¬ (e ∈ TarantulaDebugger.only_fail_events d w
       ∧ e ∈ TarantulaDebugger.only_pass_events d w).
Proof.
  intros Hr. apply reachable_wf in Hr.
  destruct (event_fraction_facts d w e TarantulaDebugger.PASS Hr)
    as (p & Hp & Hp0 & _ & Hpobs & _).
  destruct (event_fraction_facts d w e TarantulaDebugger.FAIL Hr)
    as (f & Hf & Hf0 & _ & Hfobs & _).
  rewrite (suspiciousness_value d w e p f Hp Hf).
  unfold TarantulaDebugger.only_fail_events, TarantulaDebugger.only_pass_events,
    TarantulaDebugger.all_fail_events, TarantulaDebugger.all_pass_events.
  rewrite !elem_of_difference, !elem_of_all_events_under by done.
  rewrite <- Hpobs, <- Hfobs.
  destruct (Qlt_bool 0 (p + f)) eqn:Hlt.
  - apply Qlt_bool_iff in Hlt. split; [|split].
    + split.
      * intros [Hfp Hnp]. eexists. split; [done|].
        assert (p / (p + f) == 0)%Q as ->
          by (apply (proj2 (Qdiv_eq_0 p (p + f) Hlt)); lra).
        ring.
      * intros (s & [= <-] & Hs).
        assert (p / (p + f) == 0)%Q as H0 by lra.
        apply (proj1 (Qdiv_eq_0 p (p + f) Hlt)) in H0. split; lra.
    + split.
      * intros [Hpp Hnf]. eexists. split; [done|].
        assert (p / (p + f) == 1)%Q as ->
          by (apply (proj2 (Qdiv_eq_1 p (p + f) Hlt)); lra).
        ring.
      * intros (s & [= <-] & Hs).
        assert (p / (p + f) == 1)%Q as H1 by lra.
        apply (proj1 (Qdiv_eq_1 p (p + f) Hlt)) in H1. split; lra.
    + intros [[? ?] [? ?]]. lra.
  - assert (¬ (0 < p + f)%Q) as Hn.
    { intros H. apply Qlt_bool_iff in H. congruence. }
    split; [|split].
    + split; [intros [? ?]; lra | by intros (s & ? & _)].
    + split; [intros [? ?]; lra | by intros (s & ? & _)].
    + intros [[? ?] _]. lra.
Qed.

Lemma only_fail_events_most_suspicious_witness :
  reachable SampleRuns.after_fg.1.2 SampleRuns.after_fg.2
  ∧ ("g", 12) ∈ TarantulaDebugger.only_fail_events SampleRuns.after_fg.1.2
                  SampleRuns.after_fg.2
  ∧ ∃ s, TarantulaDebugger.suspiciousness SampleRuns.after_fg.1.2 ("g", 12)
           SampleRuns.after_fg.2 = Ok (Some s)
         ∧ (s == 1)%Q.
Proof.
  assert (reachable SampleRuns.after_fg.1.2 SampleRuns.after_fg.2) as Hr
    by apply session_reachable_reachable, sample_after_fg_reachable.
  assert (("g", 12) ∈ TarantulaDebugger.only_fail_events
                        SampleRuns.after_fg.1.2 SampleRuns.after_fg.2) as Hin
    by by_compute.
  split; [exact Hr|]. split; [exact Hin|].
  exact (proj1 (proj1 (only_fail_events_most_suspicious _ _ ("g", 12) Hr))
               Hin).
Defined.

(** ** The events of an outcome, and of all outcomes *)

Lemma all_events_under_subseteq d w o :
  TarantulaDebugger.all_events d (Some o) w
  ⊆ TarantulaDebugger.all_events d None w.
Proof.
  destruct o as [|a o]; [done|]. intros e He.
  apply elem_of_all_events_under in He as (c & Hc & He); [|done].
  unfold filed_under in Hc.
  destruct (dict_get (String a o) (collectors d)) as [cs|] eqn:Hget;
    [|by apply elem_of_nil in Hc].
  apply elem_of_all_events. exists (String a o), cs, c.
  split; [by apply dict_get_elem_of|done].
Qed.

(** X6. [all_events(outcome)]: an empty string is taken as no outcome
    and gives the events of all runs; an outcome under which nothing is
    filed gives the empty set, with no [KeyError]; the events of one
    outcome are among the events of all; and after completed sessions
    the events of all runs are those of the failing and the passing
    runs. *)
Theorem all_events_by_outcome (d : Debugger) (w : World) :
  TarantulaDebugger.all_events d (Some "") w
  = TarantulaDebugger.all_events d None w
  ∧ (∀ o, o ≠ "" → dict_get o (collectors d) = None →
          TarantulaDebugger.all_events d (Some o) w = ∅)
  ∧ (∀ o, TarantulaDebugger.all_events d (Some o) w
          ⊆ TarantulaDebugger.all_events d None w)
  ∧ (session_reachable d w →
     TarantulaDebugger.all_events d None w
     = TarantulaDebugger.all_fail_events d w
       ∪ TarantulaDebugger.all_pass_events d w).
Proof.
  split; [done|]. split; [|split].
  - intros o Ho Hget. destruct o as [|a o]; [done|]. cbn. by rewrite Hget.
  - apply all_events_under_subseteq.
  - intros Hr. destruct (session_reachable_inv d w Hr) as [Hwf [Hkeys _]].
    apply set_eq. intros e. rewrite elem_of_union. split.
    + intros He. apply elem_of_all_events in He
        as (k & cs & c & Hkv & Hc & He).
      assert (observed_under d w e k) as Hobs.
      { exists c. unfold filed_under.
        by rewrite (elem_of_dict_get k cs _ (wf_keys _ _ Hwf) Hkv). }
      rewrite Forall_forall in Hkeys.
      destruct (Hkeys k) as [->| ->].
      * apply list_elem_of_fmap. by exists (k, cs).
      * right. by apply elem_of_all_events_under.
      * left. by apply elem_of_all_events_under.
    + intros [He|He]; by apply all_events_under_subseteq in He.
Qed.

Lemma all_events_by_outcome_witness :
  session_reachable SampleRuns.after_fg.1.2 SampleRuns.after_fg.2
  ∧ TarantulaDebugger.all_events SampleRuns.after_fg.1.2 None
      SampleRuns.after_fg.2
    = TarantulaDebugger.all_fail_events SampleRuns.after_fg.1.2
        SampleRuns.after_fg.2
      ∪ TarantulaDebugger.all_pass_events SampleRuns.after_fg.1.2
          SampleRuns.after_fg.2.
Proof.
  split; [apply sample_after_fg_reachable|].
  exact (proj2 (proj2 (proj2 (all_events_by_outcome _ _)))
               sample_after_fg_reachable).
Defined.

(** ** Coverage and events of a debugger *)

Lemma elem_of_concat {A} (x : A) (ls : list (list A)) :
  x ∈ concat ls ↔ ∃ l, x ∈ l ∧ l ∈ ls.
Proof.
  induction ls as [|l0 ls IH]; cbn.
  - split; [by intros ?%elem_of_nil|]. by intros (l & _ & ?%elem_of_nil).
  - rewrite elem_of_app, IH. split.
    + intros [Hx|(l & Hx & Hl)].
      * exists l0. split; [done|apply list_elem_of_here].
      * exists l. split; [done|by apply list_elem_of_further].
    + intros (l & Hx & Hl). apply elem_of_cons in Hl as [->|Hl]; eauto.
Qed.

Lemma elem_of_debugger_coverage d w loc :
  loc ∈ DebuggerMore.coverage d w ↔
  ∃ c, c ∈ filed d ∧ loc ∈ _coverage (heap w c).
Proof.
  unfold DebuggerMore.coverage, filed. rewrite elem_of_union_list. split.
  - intros (X & HX & Hloc).
    apply list_elem_of_fmap in HX as ([k cs] & -> & Hkv).
    apply elem_of_union_list in Hloc as (Y & HY & Hloc).
    apply list_elem_of_fmap in HY as (c & -> & Hc).
    exists c. split; [|done]. apply elem_of_concat.
    exists cs. split; [done|]. apply list_elem_of_fmap. by exists (k, cs).
  - intros (c & Hc & Hloc). apply elem_of_concat in Hc as (cs & Hc & Hcs).
    apply list_elem_of_fmap in Hcs as ([k cs'] & -> & Hkv). cbn in Hc.
    eexists. split; [apply list_elem_of_fmap; by exists (k, cs')|].
    apply elem_of_union_list. eexists. split; [|exact Hloc].
    apply list_elem_of_fmap. by exists c.
Qed.

Lemma elem_of_all_events_filed d w e :
  e ∈ TarantulaDebugger.all_events d None w ↔
  ∃ c, c ∈ filed d ∧ e ∈ CoverageCollector.events (heap w c).
Proof.
  rewrite elem_of_all_events. unfold filed. split.
  - intros (k & cs & c & Hkv & Hc & He). exists c. split; [|done].
    apply elem_of_concat. exists cs. split; [done|].
    apply list_elem_of_fmap. by exists (k, cs).
  - intros (c & Hc & He). apply elem_of_concat in Hc as (cs & Hc & Hcs).
    apply list_elem_of_fmap in Hcs as ([k cs'] & -> & Hkv). eauto 6.
Qed.

(** X7. The debugger's views agree: [all_events()] is [coverage()]
    with every function replaced by its name, and [covered_functions()]
    is the set of functions that occur in [coverage()]. *)
Theorem events_are_named_coverage (d : Debugger) (w : World) :
  TarantulaDebugger.all_events d None w
  = set_map (λ loc : Location, (__name__ loc.1, loc.2))
            (DebuggerMore.coverage d w)
  ∧ DebuggerMore.covered_functions d w
    = set_map (λ loc : Location, loc.1) (DebuggerMore.coverage d w).
Proof.
  split; apply set_eq; intros x.
  - rewrite elem_of_all_events_filed, elem_of_map. split.
    + intros (c & Hc & He). unfold CoverageCollector.events in He.
      apply elem_of_map in He as (loc & -> & Hloc).
      exists loc. split; [done|]. apply elem_of_debugger_coverage. eauto.
    + intros (loc & -> & Hloc).
      apply elem_of_debugger_coverage in Hloc as (c & Hc & Hloc).
      exists c. split; [done|]. unfold CoverageCollector.events.
      apply elem_of_map. eauto.
  - rewrite elem_of_map. unfold DebuggerMore.covered_functions.
    rewrite elem_of_union_list. split.
    + intros (X & HX & Hx).
      apply list_elem_of_fmap in HX as ([k cs] & -> & Hkv).
      apply elem_of_union_list in Hx as (Y & HY & Hx).
      apply list_elem_of_fmap in HY as (c & -> & Hc).
      unfold CoverageCollector.covered_functions in Hx.
      apply elem_of_map in Hx as (loc & -> & Hloc).
      exists loc. split; [done|]. apply elem_of_debugger_coverage.
      exists c. split; [|done]. apply elem_of_concat.
      exists cs. split; [done|]. apply list_elem_of_fmap. by exists (k, cs).
    + intros (loc & -> & Hloc).
      apply elem_of_debugger_coverage in Hloc as (c & Hc & Hloc).
      apply elem_of_concat in Hc as (cs & Hc & Hcs).
      apply list_elem_of_fmap in Hcs as ([k cs'] & -> & Hkv). cbn in Hc.
      eexists. split; [apply list_elem_of_fmap; by exists (k, cs')|].
      apply elem_of_union_list. eexists.
      split; [apply list_elem_of_fmap; by exists c|].
      unfold CoverageCollector.covered_functions. apply elem_of_map. eauto.
Qed.

(** ** All runs, or none *)





(** ** Brightness *)



(** ** Runs with and without an event *)



(** ** When the assertion of [rank] fires *)









(** ** Filing *)

(** X12. [add_collector(outcome, c)] appends [c] to the runs of
    [outcome] and leaves the runs of every other outcome as they are; a
    new outcome is added after the existing ones, an existing one keeps
    its place; one more run is filed in all. *)
Theorem add_collector_appends (outcome : string) (c : nat) (d : Debugger) :
  filed_under (TarantulaDebugger.add_collector outcome c d) outcome
  = filed_under d outcome ++ [c]
  ∧ (∀ o, o ≠ outcome →
          filed_under (TarantulaDebugger.add_collector outcome c d) o
          = filed_under d o)
  ∧ map fst (collectors (TarantulaDebugger.add_collector outcome c d))
    = map fst (collectors d)
      ++ (if dict_mem outcome (collectors d) then [] else [outcome])
  ∧ filed (TarantulaDebugger.add_collector outcome c d) ≡ₚ c :: filed d
  ∧ collector (TarantulaDebugger.add_collector outcome c d) = collector d.
Proof.
  split; [|split; [|split; [|split]]].
  - by rewrite filed_under_add_collector, String.eqb_refl.
  - intros o Ho. rewrite filed_under_add_collector.
    by destruct (String.eqb_spec o outcome).
  - unfold TarantulaDebugger.add_collector; cbn. rewrite dict_append_keys.
    destruct (dict_mem outcome (collectors d)).
    + by rewrite app_nil_r.
    + by rewrite map_app.
  - apply filed_add_collector.
  - done.
Qed.

Lemma add_collector_appends_witness :
  "FAIL" ≠ "PASS"
  ∧ filed_under (TarantulaDebugger.add_collector "PASS" 12
                   SampleRuns.after_fg.1.2) "FAIL"
    = filed_under SampleRuns.after_fg.1.2 "FAIL".
Proof.
  assert ("FAIL" ≠ "PASS") as Hne by discriminate.
  split; [exact Hne|].
  exact (proj1 (proj2 (add_collector_appends "PASS" 12
                         SampleRuns.after_fg.1.2)) "FAIL" Hne).
Defined.

(** ** Sessions only append *)

(** X13. A session changes the debugger's log by appending: in a
    well-formed state, after [with debugger:] the runs of every outcome
    start with the runs filed before, at most one run is new, the
    collectors filed before are untouched in the store, and the state is
    well-formed again. *)
Theorem session_appends_only (d : Debugger) (b : Block) (w : World) :
  wf d w →
  let r := with_debugger d b w in
  (∀ o, filed_under d o `prefix_of` filed_under r.1.2 o)
  ∧ (length (filed r.1.2) ≤ S (length (filed d)))%nat
  ∧ (∀ c, c ∈ filed d → heap r.2 c = heap w c)
  ∧ wf r.1.2 r.2.
Proof.
  intros Hwf r. subst r.
  split; [|split; [|split]].
  - intros o. destruct (with_debugger_cases d b w) as [_ Hcases].
    assert (∀ o', filed_under d o
                  `prefix_of` filed_under
                    (TarantulaDebugger.add_collector o' (next_ref w)
                       (entered d w)) o) as Hadd.
    { intros o'. rewrite filed_under_add_collector.
      destruct (String.eqb_spec o o') as [->|]; [|done].
      by apply prefix_app_r. }
    destruct (_function _), (blk_exc b) as [e|].
    + destruct (CoverageCollector.is_internal_error _);
        destruct Hcases as [_ ->]; [done|apply Hadd].
    + destruct Hcases as [_ ->]. apply Hadd.
    + by destruct Hcases as [_ ->].
    + by destruct Hcases as [_ ->].
  - destruct (with_debugger_cases d b w) as [_ Hcases].
    assert (∀ o', length (filed (TarantulaDebugger.add_collector o'
                                   (next_ref w) (entered d w)))
                  = S (length (filed d))) as Hadd.
    { intros o'. by rewrite filed_add_collector. }
    assert (length (filed (entered d w)) = length (filed d)) as Hent by done.
    destruct (_function _), (blk_exc b) as [e|].
    + destruct (CoverageCollector.is_internal_error _);
        destruct Hcases as [_ ->]; [lia|by rewrite Hadd].
    + destruct Hcases as [_ ->]. by rewrite Hadd.
    + destruct Hcases as [_ ->]. lia.
    + destruct Hcases as [_ ->]. lia.
  - intros c Hc. apply with_debugger_heap_other.
    pose proof (wf_alloc _ _ Hwf) as Halloc. rewrite Forall_forall in Halloc.
    specialize (Halloc c Hc). lia.
  - by apply with_debugger_wf.
Qed.

Lemma session_appends_only_witness :
  wf SampleRuns.after_f.1.2 SampleRuns.after_f.2
  ∧ filed_under SampleRuns.after_f.1.2 "PASS"
    `prefix_of` filed_under SampleRuns.after_fg.1.2 "PASS".
Proof.
  assert (wf SampleRuns.after_f.1.2 SampleRuns.after_f.2) as Hwf
    by apply reachable_wf, session_reachable_reachable,
       sample_after_f_reachable.
  split; [exact Hwf|].
  exact (proj1 (session_appends_only SampleRuns.after_f.1.2
                  Sample.block_g_raises SampleRuns.after_f.2 Hwf) "PASS").
Defined.


(** ** Changed variables *)

Lemma dict_set_fresh {V} k (v : V) d :
  k ∉ map fst d → dict_set k v d = d ++ [(k, v)].
Proof.
  induction d as [|[k0 v0] d IH]; cbn; [done|].
  rewrite not_elem_of_cons. intros [Hne Hnot].
  destruct (String.eqb_spec k k0); [done|]. by rewrite IH.
Qed.

Lemma changed_loop_spec ne differs last_vars items changed :
  (∀ k v last, (k, v) ∈ items → dict_get k last_vars = Some last →
               ne last v = Ok (differs last v)) →
  NoDup (map fst items) →
  (∀ k, k ∈ map fst items → k ∉ map fst changed) →
  CollectorMore.changed_loop ne last_vars items changed
  = Ok (changed ++ List.filter (reported differs last_vars) items).
Proof.
  revert changed. induction items as [|[k v] items IH];
    intros changed Hne Hnd Hfresh; cbn.
  - by rewrite app_nil_r.
  - apply NoDup_cons in Hnd as [Hk Hnd].
    assert (match dict_get k last_vars with
            | Some last => ne last v
            | None => Ok true
            end = Ok (reported differs last_vars (k, v))) as ->.
    { unfold reported. cbn.
      destruct (dict_get k last_vars) as [last|] eqn:Hget; [|done].
      apply (Hne k v last); [apply list_elem_of_here|done]. }
    cbn.
    assert (∀ k' v' last, (k', v') ∈ items →
              dict_get k' last_vars = Some last →
              ne last v' = Ok (differs last v')) as Hne'.
    { intros k' v' last Hin. apply Hne. by apply list_elem_of_further. }
    destruct (reported differs last_vars (k, v)).
    + rewrite dict_set_fresh by (apply Hfresh; apply list_elem_of_here).
      rewrite IH; [by rewrite <- app_assoc|done|done|].
      intros k' Hk'. rewrite map_app. cbn. rewrite elem_of_app.
      intros [Hin|Hin%list_elem_of_singleton].
      * eapply Hfresh; [|exact Hin]. by apply list_elem_of_further.
      * by subst k'.
    + apply IH; [done|done|].
      intros k' Hk'. apply Hfresh. by apply list_elem_of_further.
Qed.

Lemma filter_all {A} (f : A → bool) (l : list A) :
  (∀ x, x ∈ l → f x = true) → List.filter f l = l.
Proof.
  induction l as [|x l IH]; cbn; intros H; [done|].
  rewrite (H x) by apply list_elem_of_here. f_equal. apply IH.
  intros y Hy. apply H. by apply list_elem_of_further.
Qed.

Lemma filter_none {A} (f : A → bool) (l : list A) :
  (∀ x, x ∈ l → f x = false) → List.filter f l = [].
Proof.
  induction l as [|x l IH]; cbn; intros H; [done|].
  rewrite (H x) by apply list_elem_of_here. apply IH.
  intros y Hy. apply H. by apply list_elem_of_further.
Qed.

(** X14. As long as no comparison raises, [changed_vars(new_vars)]
    reports, in the order of [new_vars], exactly the bindings of
    [new_vars] whose name [last_vars] does not hold or whose value [!=]
    tells apart from the remembered one, and remembers [new_vars].  With
    nothing remembered every binding is reported; asking again with the
    same variables reports nothing if no value differs from itself.
    When a comparison raises, [last_vars] stays as it was. *)
Theorem changed_vars_spec (ne : Value → Value → Result bool)
    (last_vars new_vars : list (string * Value)) :
  NoDup (map fst new_vars) →
  (∀ differs : Value → Value → bool,
     (∀ k v last, (k, v) ∈ new_vars → dict_get k last_vars = Some last →
                  ne last v = Ok (differs last v)) →
     CollectorMore.changed_vars ne last_vars new_vars
     = (Ok (List.filter (reported differs last_vars) new_vars), new_vars))
  ∧ CollectorMore.changed_vars ne [] new_vars = (Ok new_vars, new_vars)
  ∧ ((∀ k v, (k, v) ∈ new_vars → ne v v = Ok false) →
     CollectorMore.changed_vars ne new_vars new_vars = (Ok [], new_vars))
  ∧ (∀ e, (CollectorMore.changed_vars ne last_vars new_vars).1 = Raise e →
          (CollectorMore.changed_vars ne last_vars new_vars).2 = last_vars).
Proof.
  intros Hnd.
  assert (∀ last differs,
    (∀ k v l, (k, v) ∈ new_vars → dict_get k last = Some l →
              ne l v = Ok (differs l v)) →
    CollectorMore.changed_vars ne last new_vars
    = (Ok (List.filter (reported differs last) new_vars), new_vars)) as Hspec.
  { intros last differs Hne. unfold CollectorMore.changed_vars.
    rewrite (changed_loop_spec ne differs); [done|done|done|].
    intros k _. apply not_elem_of_nil. }
  split; [apply Hspec|]. split; [|split].
  - rewrite (Hspec [] (λ _ _, true)) by done.
    by rewrite filter_all.
  - intros Hrefl. rewrite (Hspec new_vars (λ _ _, false)).
    + rewrite filter_none; [done|]. intros [k v] Hin. unfold reported. cbn.
      by rewrite (elem_of_dict_get k v new_vars Hnd Hin).
    + intros k v l Hin Hget.
      assert ((k, l) ∈ new_vars) as Hin' by by apply dict_get_elem_of.
      rewrite (elem_of_dict_get k v new_vars Hnd Hin) in Hget.
      injection Hget as <-. by apply (Hrefl k).
  - intros e. unfold CollectorMore.changed_vars.
    by destruct (CollectorMore.changed_loop _ _ _ _).
Qed.

Lemma changed_vars_spec_witness :
  let last_vars := [("x", VInt 1); ("y", VInt 2)] in
  let new_vars := [("x", VInt 1); ("y", VInt 3); ("z", VNone)] in
  NoDup (map fst new_vars)
  ∧ (∀ k v last, (k, v) ∈ new_vars → dict_get k last_vars = Some last →
                 SampleMore.ne last v = Ok (SampleMore.differs last v))
  ∧ CollectorMore.changed_vars SampleMore.ne last_vars new_vars
    = (Ok [("y", VInt 3); ("z", VNone)], new_vars).
Proof.
  intros last_vars new_vars.
  assert (NoDup (map fst new_vars)) as Hnd by by_compute.
  assert (∀ k v last, (k, v) ∈ new_vars → dict_get k last_vars = Some last →
                      SampleMore.ne last v = Ok (SampleMore.differs last v))
    as Hne by done.
  split; [exact Hnd|]. split; [exact Hne|].
  exact (proj1 (changed_vars_spec SampleMore.ne last_vars new_vars Hnd)
           SampleMore.differs Hne).
Defined.

(** ** Ignored frames *)

Lemma qualifies_item items item ev :
  item ∈ items →
  CoverageCollector.ignores item (ev_frame ev) = true →
  qualifies items ev = false.
Proof.
  intros Hin Hign. unfold qualifies. apply andb_false_iff. right.
  apply negb_false_iff, existsb_exists. exists item.
  split; [by apply list_elem_of_In|done].
Qed.

(** X15. Ignored frames leave no trace: a block all of whose events are
    dropped leaves the whole store as it was.  An event is dropped when
    its frame's [self] is an instance of a class in [items_to_ignore],
    or when its code is named like any item, class or function, in the
    list; adding items never makes an event qualify. *)
Theorem ignored_events_leave_no_trace :
  (∀ c evs w,
     trace_slot w = Some (TraceOf c) →
     Forall (λ ev, qualifies (items_to_ignore (heap w c)) ev = false) evs →
     run_events evs w = w)
  ∧ (∀ items item ev,
       item ∈ items →
       item_name item = co_name (f_code (ev_frame ev)) →
       qualifies items ev = false)
  ∧ (∀ items cls ev v,
       IType cls ∈ items →
       dict_get "self" (f_locals (ev_frame ev)) = Some v →
       isinstance v cls = true →
       qualifies items ev = false)
  ∧ (∀ items more ev,
       qualifies (items ++ more) ev = true → qualifies items ev = true).
Proof.
  split; [|split; [|split]].
  - intros c evs w Hs Hall. induction Hall as [|ev evs Hq _ IH]; [done|].
    cbn. rewrite (deliver_ignored c) by done. apply IH.
  - intros items item ev Hin Hname. apply (qualifies_item items item); [done|].
    unfold CoverageCollector.ignores. rewrite Hname, String.eqb_refl.
    apply orb_true_r.
  - intros items cls ev v Hin Hself Hinst.
    apply (qualifies_item items (IType cls)); [done|].
    unfold CoverageCollector.ignores. by rewrite Hself, Hinst.
  - intros items more ev. unfold qualifies.
    rewrite !andb_true_iff, !negb_true_iff, existsb_app, orb_false_iff. tauto.
Qed.

Lemma ignored_events_leave_no_trace_witness :
  let w := CoverageCollector.__enter__ 10 SampleMore.world1 in
  let evs := [mkEvent Sample.tracer_frame Call;
              mkEvent Sample.tracer_frame Line] in
  trace_slot w = Some (TraceOf 10)
  ∧ Forall (λ ev, qualifies (items_to_ignore (heap w 10)) ev = false) evs
  ∧ run_events evs w = w.
Proof.
  intros w evs.
  assert (Forall (λ ev, qualifies (items_to_ignore (heap w 10)) ev = false)
                 evs) as Hall by (repeat constructor).
  split; [reflexivity|]. split; [exact Hall|].
  exact (proj1 ignored_events_leave_no_trace 10%nat evs w eq_refl Hall).
Defined.


(** ** Units of different sessions *)

Lemma synthesized_by_mono c b b' f :
  (b ≤ b')%nat → synthesized_by c b f → synthesized_by c b' f.
Proof.
  intros Hle [->|(r & n & -> & Hr)]; [by left|].
  right. exists r, n. split; [done|lia].
Qed.

Lemma create_function_units c frame w :
  units_ok c w →
  units_ok c (CoverageCollector.create_function c frame w).2
  ∧ ∀ g, (CoverageCollector.create_function c frame w).1 = Ok g →
         synthesized_by c
           (next_ref (CoverageCollector.create_function c frame w).2) g.
Proof.
  intros [Halloc Hcache Hfun].
  unfold CoverageCollector.create_function.
  destruct (_generated_function_cache (heap w c) !! _) as [cached|] eqn:Hc.
  - split; [by split|]. intros g [= <-]. by apply (Hcache _ _ Hc).
  - create_function_cases c frame w; wsimpl.
    + assert (synthesized_by c (S (next_ref w))
                (Fn (next_ref w) (co_name (f_code frame)))) as Hnew.
      { right. eexists _, _. split; [done|lia]. }
      split; [|by intros g [= <-]]. split; wsimpl; [lia| |].
      * intros k g. rewrite lookup_insert. case_decide; [by intros [= <-]|].
        intros Hk. eapply synthesized_by_mono; [|by eapply Hcache]. lia.
      * intros f Hf. eapply synthesized_by_mono; [|by apply Hfun]. lia.
    + split; [by split|done].
    + split; [|intros g [= <-]; by left]. split; wsimpl; [done| |done].
      intros k g. rewrite lookup_insert.
      case_decide; [intros [= <-]; by left|]. by apply Hcache.
Qed.

Lemma units_ok_upd c g w :
  units_ok c w →
  _generated_function_cache (g (heap w c))
  = _generated_function_cache (heap w c) →
  (∀ f, _function (g (heap w c)) = Some f →
        synthesized_by c (next_ref w) f) →
  units_ok c (upd c g w).
Proof.
  intros [Halloc Hcache Hfun] Hc Hf. split; wsimpl; [done| |done].
  by rewrite Hc.
Qed.

Lemma collect_units c frame event w :
  units_ok c w → units_ok c (CoverageCollector.collect c frame event w).2.
Proof.
  intros Hok. unfold CoverageCollector.collect.
  destruct (CoverageCollector.search_func _ frame) as [found|].
  - apply units_ok_upd; [done|done|]. cbn. apply Hok.
  - destruct (create_function_units c frame w Hok) as [Hok' _].
    destruct (CoverageCollector.create_function c frame w) as [[g|e] w1];
      [|done].
    apply units_ok_upd; [done|done|]. cbn. apply Hok'.
Qed.

Lemma traceit_units c frame event w :
  units_ok c w → units_ok c (CoverageCollector.traceit c frame event w).2.
Proof.
  intros Hok. unfold CoverageCollector.traceit.
  destruct (existsb _ _); [done|].
  destruct (_function (heap w c)) as [f|] eqn:Hf; [by apply collect_units|].
  destruct event; try by apply collect_units.
  destruct (create_function_units c frame w Hok) as [Hok' Hg].
  destruct (CoverageCollector.create_function c frame w) as [[g|e] w1];
    [|done].
  cbn [fst snd] in *. specialize (Hg g eq_refl).
  assert (units_ok c (upd c (set_args (f_locals frame))
                        (upd c (set_function g) w1))) as H2.
  { apply units_ok_upd; [|done|].
    - apply units_ok_upd; [done|done|]. by intros f [= <-].
    - wsimpl. by intros f [= <-]. }
  destruct (CoverageCollector.argstring_of _ _) as [s|e]; [|done].
  apply collect_units. apply units_ok_upd; [done|done|]. cbn. apply H2.
Qed.

Lemma deliver_units c ev w :
  trace_slot w = Some (TraceOf c) →
  units_ok c w → units_ok c (deliver ev w).
Proof.
  intros Hs Hok.
  assert (units_ok c (CoverageCollector._traceit c (ev_frame ev) (ev_kind ev)
                        w).2) as Hok'.
  { unfold CoverageCollector._traceit.
    destruct (CoverageCollector.our_frame _); [done|]. by apply traceit_units. }
  destruct (deliver_cases c ev w Hs) as [(_ & -> & _)|(_ & -> & _)]; [done|].
  by destruct Hok'.
Qed.

Lemma run_events_units c evs w :
  trace_slot w = Some (TraceOf c) →
  units_ok c w → units_ok c (run_events evs w).
Proof.
  revert w. induction evs as [|ev evs IH]; intros w Hs Hok; [done|].
  rewrite run_events_cons.
  pose proof (deliver_units c ev w Hs Hok) as Hok'.
  destruct (deliver_cases c ev w Hs) as [(_ & _ & Hs')|(_ & _ & Hoff)].
  - by apply IH.
  - by rewrite run_events_off.
Qed.

Lemma before_exit_units d b w : units_ok (next_ref w) (before_exit d b w).
Proof.
  destruct (debugger_enter d w) as (_ & Hslot & Hheap & Hnext & _).
  apply run_events_units; [done|].
  split; rewrite ?Hheap, ?Hnext; cbn; [lia|done|done].
Qed.

Lemma with_debugger_units_inv d b w :
  wf d w → units_inv d w →
  units_inv (with_debugger d b w).1.2 (with_debugger d b w).2.
Proof.
  intros Hwf Hinv.
  pose proof (with_debugger_next_ref d b w) as Hlt.
  pose proof (wf_alloc _ _ Hwf) as Halloc. rewrite Forall_forall in Halloc.
  pose proof (before_exit_units d b w) as Hnew.
  destruct (with_debugger_cases d b w) as [Hw Hcases].
  assert (heap (with_debugger d b w).2 (next_ref w)
          = heap (before_exit d b w) (next_ref w)) as Hheap
    by (by rewrite Hw, exit_heap).
  assert (next_ref (before_exit d b w) = next_ref (with_debugger d b w).2)
    as Hnext by (by rewrite Hw, exit_next_ref).
  (* a log that is the old one, with or without the new collector *)
  assert (∀ d', (∀ c, c ∈ filed d' → c = next_ref w ∨ c ∈ filed d) →
                units_inv d' (with_debugger d b w).2) as Hstep.
  { intros d' Hfiled c f Hc Hf.
    destruct (Hfiled c Hc) as [->|Hold].
    - rewrite Hheap in Hf.
      pose proof (uo_function _ _ Hnew f Hf) as Hsyn. rewrite Hnext in Hsyn.
      split; [done|]. intros c' r n Hc' Hlt' _.
      destruct (Hfiled c' Hc') as [->|Hold']; [lia|].
      specialize (Halloc c' Hold'). lia.
    - rewrite with_debugger_heap_other in Hf
        by (specialize (Halloc c Hold); lia).
      destruct (Hinv c f Hold Hf) as [Hsyn Hlater]. split.
      + eapply synthesized_by_mono; [|exact Hsyn]. lia.
      + intros c' r n Hc' Hlt' ->.
        destruct (Hfiled c' Hc') as [->|Hold']; [|by eapply Hlater].
        destruct Hsyn as [|(r' & n' & [= <- <-] & ?)]; [done|lia]. }
  assert (units_inv (entered d w) (with_debugger d b w).2) as Hent.
  { apply Hstep. intros c Hc. by right. }
  assert (∀ o, units_inv (TarantulaDebugger.add_collector o (next_ref w)
                            (entered d w)) (with_debugger d b w).2) as Hadd.
  { intros o. apply Hstep. intros c Hc.
    rewrite filed_add_collector in Hc.
    apply elem_of_cons in Hc as [->|Hc]; [by left|by right]. }
  destruct (_function _), (blk_exc b) as [e|].
  - destruct (CoverageCollector.is_internal_error _);
      destruct Hcases as [_ ->]; done.
  - destruct Hcases as [_ ->]; done.
  - destruct Hcases as [_ ->]; done.
  - destruct Hcases as [_ ->]; done.
Qed.

Lemma session_reachable_units d w : session_reachable d w → units_inv d w.
Proof.
  induction 1 as [w | d w b k d' w' Hr IH Heq].
  - intros c f Hc. by apply elem_of_nil in Hc.
  - pose proof (with_debugger_units_inv d b w
                  (reachable_wf _ _ (session_reachable_reachable _ _ Hr)) IH)
      as Hinv.
    by rewrite Heq in Hinv.
Qed.

(** X16. After completed sessions, the unit a filed collector returns
    from [function()] is one it made itself: its own placeholder, or a
    function object created after the collector and before the session
    ended.  Hence the units of two different filed collectors are
    never the same object, also when both sessions ran the same
    function. *)
Theorem session_units_distinct (d : Debugger) (w : World) :
  session_reachable d w →
  (∀ c f, c ∈ filed d → _function (heap w c) = Some f →
          synthesized_by c (next_ref w) f)
  ∧ (∀ c1 c2 f1 f2,
       c1 ∈ filed d → c2 ∈ filed d → c1 ≠ c2 →
       _function (heap w c1) = Some f1 →
       _function (heap w c2) = Some f2 →
       f1 ≠ f2).
Proof.
  intros Hr. pose proof (session_reachable_units d w Hr) as Hinv.
  split; [intros c f Hc Hf; by apply (Hinv c f)|].
  assert (∀ c1 c2 f, c1 ∈ filed d → c2 ∈ filed d → (c1 < c2)%nat →
                     _function (heap w c1) = Some f →
                     _function (heap w c2) = Some f → False) as Hlt.
  { intros c1 c2 f Hc1 Hc2 Hlt Hf1 Hf2.
    destruct (Hinv c1 f Hc1 Hf1) as [Hs1 Hlater].
    destruct (Hinv c2 f Hc2 Hf2) as [Hs2 _].
    destruct Hs2 as [->|(r & n & -> & Hr2)].
    - destruct Hs1 as [[= ->]|(r & n & [=] & _)]. lia.
    - specialize (Hlater c2 r n Hc2 Hlt eq_refl). lia. }
  intros c1 c2 f1 f2 Hc1 Hc2 Hne Hf1 Hf2 ->.
  destruct (Nat.lt_total c1 c2) as [Hc|[Hc|Hc]]; [|done|].
  - exact (Hlt c1 c2 f2 Hc1 Hc2 Hc Hf1 Hf2).
  - exact (Hlt c2 c1 f2 Hc2 Hc1 Hc Hf2 Hf1).
Qed.

Lemma session_units_distinct_witness :
  session_reachable SampleRuns.after_fg.1.2 SampleRuns.after_fg.2
  ∧ synthesized_by 10 (next_ref SampleRuns.after_fg.2) (Fn 11 "f").
Proof.
  split; [apply sample_after_fg_reachable|].
  apply (proj1 (session_units_distinct _ _ sample_after_fg_reachable)).
  - rewrite sample_filed_after_fg. apply list_elem_of_here.
  - vm_compute. reflexivity.
Defined.
